(** * SpikingControllerNet: ControlledLayer.py

    A shallow embedding of [ControlledLayer] and [ControlledNetwork] and the
    properties of their dynamics, feedback controller, convergence loop and
    plasticity rule.

    Numbers.  Tensor entries and Python floats are modelled as real numbers
    ([R]): every arithmetic operation is exact, rounding and NaN are not
    modelled (the one place where torch produces NaN by construction, the
    mean of an empty tensor, is written out).  A floating-point sigmoid
    saturates at exactly 0 and 1, which the real one never reaches: what is
    stated about rates uses the closed bounds, and a target is out of reach
    only when it is strictly farther than the precision from them.
    One-dimensional tensors are lists of reals, two-dimensional tensors are
    lists of rows.

    Shapes.  The shape checks that can fail on caller-supplied data
    (the input width of a [torch.nn.Linear], broadcasting against a target)
    are modelled and return [None] where torch raises.  Inside a layer all
    element-wise operations act on tensors whose shapes agree by the class
    invariant [ControlledLayer.wf], established by the constructor and kept by
    [forward] and [reset]; they are written with [map2].

    Randomness.  [torch.rand_like] reads the ambient generator; the generator
    is an explicit state [Rng]: a fixed sequence of draws and a position. *)

From Stdlib Require Import String Reals Lra List Bool Arith Lia.
Import ListNotations.
Open Scope R_scope.

(** ** Python values used as flags *)

(** [stdp_tau] and [stdp_decay] hold either a bool or a number and are
    tested for truthiness. *)
Inductive pyval : Type :=
| PyBool (b : bool)
| PyNum (r : R).

Definition truthy (p : pyval) : bool :=
  match p with
  | PyBool b => b
  | PyNum r => if Req_dec_T r 0 then false else true
  end.

Definition as_num (p : pyval) : R :=
  match p with
  | PyBool true => 1
  | PyBool false => 0
  | PyNum r => r
  end.

(** ** Tensors *)

Definition tensor1 := list R.
Definition tensor2 := list (list R).

Fixpoint map2 {A B C : Type} (f : A -> B -> C) (a : list A) (b : list B) : list C :=
  match a, b with
  | x :: a', y :: b' => f x y :: map2 f a' b'
  | _, _ => []
  end.

Definition Rgtb (x y : R) : bool := if Rgt_dec x y then true else false.
Definition Rleb (x y : R) : bool := if Rle_dec x y then true else false.
Definition b2r (b : bool) : R := if b then 1 else 0.

Definition vadd : tensor1 -> tensor1 -> tensor1 := map2 Rplus.
Definition vsub : tensor1 -> tensor1 -> tensor1 := map2 Rminus.
Definition smul (k : R) : tensor1 -> tensor1 := map (Rmult k).
Definition zeros (n : nat) : tensor1 := repeat 0 n.

Definition madd : tensor2 -> tensor2 -> tensor2 := map2 vadd.
Definition msub : tensor2 -> tensor2 -> tensor2 := map2 vsub.
Definition mneg : tensor2 -> tensor2 := map (map Ropp).
Definition zeros_like2 (m : tensor2) : tensor2 := map (map (fun _ => 0)) m.

Definition rsum (a : tensor1) : R := fold_right Rplus 0 a.

Fixpoint dot (a b : tensor1) : R :=
  match a, b with
  | x :: a', y :: b' => x * y + dot a' b'
  | _, _ => 0
  end.

(** [torch.outer(a, b)]: a [|a| x |b|] matrix. *)
Definition outer (a b : tensor1) : tensor2 := map (fun x => map (Rmult x) b) a.

(** [.T] of a matrix with [ncols] columns. *)
Definition transpose (ncols : nat) (m : tensor2) : tensor2 :=
  map (fun j => map (fun row => nth j row 0) m) (seq 0 ncols).

(** Binary operation on one-dimensional tensors with torch broadcasting:
    equal lengths, or one side of length one; anything else raises. *)
Definition broadcast2 (f : R -> R -> R) (a b : tensor1) : option tensor1 :=
  if (length a =? length b)%nat then Some (map2 f a b)
  else if (length b =? 1)%nat then Some (map (fun x => f x (hd 0 b)) a)
  else if (length a =? 1)%nat then Some (map (f (hd 0 a)) b)
  else None.

(** In-place [a += b]: [b] must broadcast to the shape of [a]. *)
Definition iadd (a b : tensor1) : option tensor1 :=
  if (length a =? length b)%nat then Some (map2 Rplus a b)
  else if (length b =? 1)%nat then Some (map (fun x => x + hd 0 b) a)
  else None.

(** [t.abs().mean()]; the mean of an empty tensor is NaN. *)
Definition abs_mean (a : tensor1) : option R :=
  match a with
  | [] => None
  | _ => Some (rsum (map Rabs a) / INR (length a))
  end.

Definition sigmoid (x : R) : R := / (1 + exp (- x)).

(** ** The random generator *)

Record Rng : Type := mkRng { draw : nat -> R; pos : nat }.

(** [torch.rand_like(t)] for a tensor of [n] entries. *)
Definition rand_like (n : nat) (g : Rng) : tensor1 * Rng :=
  (map (draw g) (seq (pos g) n), mkRng (draw g) (pos g + n)).

(** [spikify(rate) = (rate > torch.rand_like(rate)) * 1] *)
Definition spikify (rate : tensor1) (g : Rng) : tensor1 * Rng :=
  let (u, g') := rand_like (length rate) g in
  (map2 (fun r x => b2r (Rgtb r x)) rate u, g').

(** ** torch.nn.Linear without bias *)

Record Linear : Type := mkLinear {
  in_features : nat;
  weight : tensor2;                (* out_features rows of in_features entries *)
  weight_grad : option tensor2     (* [weight.grad], [None] until first written *)
}.

(** The matrix-vector product [W . x]. *)
Definition matvec (W : tensor2) (x : tensor1) : tensor1 :=
  map (fun row => dot row x) W.

Definition apply_linear (L : Linear) (x : tensor1) : option tensor1 :=
  if (length x =? in_features L)%nat
  then Some (matvec (weight L) x)
  else None.

Definition init_weight (rows cols : nat) (w : nat -> nat -> R) : tensor2 :=
  map (fun i => map (fun j => w i j) (seq 0 cols)) (seq 0 rows).

(** [torch.nn.init.eye_] *)
Definition eye (rows cols : nat) : tensor2 :=
  init_weight rows cols (fun i j => if (i =? j)%nat then 1 else 0).

Inductive Mode : Type := spiking | rate.

(** ** class ControlledLayer *)

Module ControlledLayer.

Record t : Type := mk {
  leak : R;
  threshold : R;
  fan_out : nat;
  ff : Linear;
  fb : Linear;
  v : tensor1;
  mode : Mode;
  stdp_decay : pyval;
  Apre : option tensor1;      (* the attributes exist only when stdp_decay is truthy *)
  Apost : option tensor1
}.

Definition set_v (l : t) (v' : tensor1) : t :=
  mk (leak l) (threshold l) (fan_out l) (ff l) (fb l) v' (mode l)
     (stdp_decay l) (Apre l) (Apost l).

Definition set_plasticity (l : t) (apre apost : tensor1) (g : tensor2) : t :=
  mk (leak l) (threshold l) (fan_out l)
     (mkLinear (in_features (ff l)) (weight (ff l)) (Some g))
     (fb l) (v l) (mode l) (stdp_decay l) (Some apre) (Some apost).

Definition reset (l : t) : t := set_v l (zeros (fan_out l)).

Definition parse_mode (m : string) : option Mode :=
  if String.eqb m "spiking" then Some spiking
  else if String.eqb m "rate" then Some rate
  else None.

(** [__init__]; [w] gives the initial feed-forward weights drawn by torch.
    The assertion on [mode] fails with [None]. *)
Definition init (fan_in fan_out controller_dim : nat) (mode : string)
    (leak : R) (stdp_tau : pyval) (w : nat -> nat -> R) : option t :=
  match parse_mode mode with
  | None => None
  | Some m =>
      let stdp_decay :=
        if truthy stdp_tau then PyNum (1 - 1 / as_num stdp_tau) else PyBool false in
      let traces := truthy stdp_decay in
      Some (mk leak 1 fan_out
               (mkLinear fan_in (init_weight fan_out fan_in w) None)
               (mkLinear controller_dim (eye fan_out controller_dim) None)
               (zeros fan_out) m stdp_decay
               (if traces then Some (zeros fan_in) else None)
               (if traces then Some (zeros fan_out) else None))
  end.

Definition _spiking_dynamics (l : t) : tensor1 * t :=
  let spikes := map (fun x => Rgtb x (threshold l)) (v l) in
  (map b2r spikes, set_v l (map2 (fun (s : bool) x => if s then 0 else x) spikes (v l))).

Definition _rate_dynamics (l : t) : tensor1 * t :=
  (map sigmoid (v l), l).

Definition dynamics (l : t) : tensor1 * t :=
  match mode l with
  | spiking => _spiking_dynamics l
  | rate => _rate_dynamics l
  end.

(** The potential after the LIF update
    [self.v += -self.leak * self.v + ff_input + fb_input]. *)
Definition integrate (l : t) (ff_input fb_input : tensor1) : tensor1 :=
  vadd (v l) (vadd (vadd (smul (- leak l) (v l)) ff_input) fb_input).

(** The spike indicators used by the plasticity rule. *)
Definition spike_indicators (l : t) (inputs outputs : tensor1) (g : Rng)
    : tensor1 * tensor1 * Rng :=
  match mode l with
  | rate =>
      let (input_spikes, g1) := spikify inputs g in
      let (output_spikes, g2) := spikify outputs g1 in
      (input_spikes, output_spikes, g2)
  | spiking => (inputs, outputs, g)
  end.

(** The right-hand side of [self.ff.weight.grad -= ...]. *)
Definition stdp_update (input_spikes output_spikes apre apost : tensor1) : tensor2 :=
  madd (mneg (transpose (length apost) (outer input_spikes apost)))
       (outer output_spikes apre).

(** [forward]; reading [self.Apre] or [self.Apost] where the constructor did
    not create them raises. *)
Definition forward (l : t) (inputs c : tensor1) (g : Rng) : option (tensor1 * t * Rng) :=
  match apply_linear (ff l) inputs with
  | None => None
  | Some ff_input =>
    match apply_linear (fb l) c with
    | None => None
    | Some fb_input =>
      let l1 := set_v l (integrate l ff_input fb_input) in
      let (outputs, l2) := dynamics l1 in
      if truthy (stdp_decay l2) then
        let grad0 :=
          match weight_grad (ff l2) with
          | None => zeros_like2 (weight (ff l2))
          | Some gr => gr
          end in
        let '(input_spikes, output_spikes, g') := spike_indicators l2 inputs outputs g in
        match Apre l2, Apost l2 with
        | Some apre0, Some apost0 =>
            let decay := as_num (stdp_decay l2) in
            let apre := vadd (smul decay apre0) input_spikes in
            let apost := vadd (smul decay apost0) output_spikes in
            let grad1 := msub grad0 (stdp_update input_spikes output_spikes apre apost) in
            Some (outputs, set_plasticity l2 apre apost grad1, g')
        | _, _ => None
        end
      else Some (outputs, l2, g)
    end
  end.

(** The [grad] property. *)
Definition grad (l : t) : option tensor2 := weight_grad (ff l).

(** The class invariant on shapes. *)
Definition wf (l : t) : Prop :=
  length (weight (ff l)) = fan_out l /\
  length (weight (fb l)) = fan_out l /\
  length (v l) = fan_out l.

End ControlledLayer.

(** ** class ControlledNetwork *)

(** What a run of the convergence loop comes to: it returns, it raises, or
    the fuel given to the model of [while True] is used up. *)
Inductive outcome (A : Type) : Type :=
| Returned (a : A)
| Raised
| OutOfFuel.
Arguments Returned {A} a.
Arguments Raised {A}.
Arguments OutOfFuel {A}.

Module ControlledNetwork.

Record t : Type := mk {
  controller_rate : R;
  ctr_precision : R;
  target_rates : tensor1;
  layers : list ControlledLayer.t;
  c : tensor1
}.

Definition set_layers (n : t) (ls : list ControlledLayer.t) : t :=
  mk (controller_rate n) (ctr_precision n) (target_rates n) ls (c n).

Definition set_c (n : t) (c' : tensor1) : t :=
  mk (controller_rate n) (ctr_precision n) (target_rates n) (layers n) c'.

(** [zip(layers[:-1], layers[1:])] with the layer index, for the initial weights. *)
Fixpoint init_layers (widths : list nat) (controller_dim : nat) (mode : string)
    (leak : R) (stdp_tau : pyval) (w : nat -> nat -> nat -> R) (k : nat)
    : option (list ControlledLayer.t) :=
  match widths with
  | fan_in :: ((fan_out :: _) as rest) =>
      match ControlledLayer.init fan_in fan_out controller_dim mode leak stdp_tau (w k) with
      | None => None
      | Some l =>
          match init_layers rest controller_dim mode leak stdp_tau w (S k) with
          | None => None
          | Some ls => Some (l :: ls)
          end
      end
  | _ => Some []
  end.

(** [__init__]; [layers[-1]] raises on an empty list of widths. *)
Definition init (widths : list nat) (mode : string) (leak controller_rate : R)
    (stdp_tau : pyval) (controller_precision : R) (target_rates : tensor1)
    (w : nat -> nat -> nat -> R) : option t :=
  match widths with
  | [] => None
  | _ =>
      let controller_dim := last widths O in
      match init_layers widths controller_dim mode leak stdp_tau w 0 with
      | None => None
      | Some ls =>
          Some (mk controller_rate controller_precision target_rates ls (zeros controller_dim))
      end
  end.

(** [for layer in self.layers: x = layer(x, c)] *)
Fixpoint forward_layers (ls : list ControlledLayer.t) (x c : tensor1) (g : Rng)
    : option (tensor1 * list ControlledLayer.t * Rng) :=
  match ls with
  | [] => Some (x, [], g)
  | l :: ls' =>
      match ControlledLayer.forward l x c g with
      | None => None
      | Some (y, l', g1) =>
          match forward_layers ls' y c g1 with
          | None => None
          | Some (z, ls'', g2) => Some (z, l' :: ls'', g2)
          end
      end
  end.

Definition forward (n : t) (x c : tensor1) (g : Rng) : option (tensor1 * t * Rng) :=
  match forward_layers (layers n) x c g with
  | None => None
  | Some (y, ls, g') => Some (y, set_layers n ls, g')
  end.

Definition feedforward (n : t) (x : tensor1) (g : Rng) : option (tensor1 * t * Rng) :=
  forward n x (map (fun _ => 0) (c n)) g.

Definition evolve_controller (n : t) (current_output control_target_rate : tensor1)
    : option t :=
  match broadcast2 Rminus control_target_rate current_output with
  | None => None
  | Some error =>
      match iadd (c n) (smul (controller_rate n) error) with
      | None => None
      | Some c' => Some (set_c n c')
      end
  end.

Definition reset (n : t) : t :=
  mk (controller_rate n) (ctr_precision n) (target_rates n)
     (map ControlledLayer.reset (layers n)) (map (fun _ => 0) (c n)).

(** [(output_rate - target_rate).abs().mean() <= self.ctr_precision];
    a comparison with NaN is false. *)
Definition within_precision (n : t) (output_rate target_rate : tensor1) : option bool :=
  match broadcast2 Rminus output_rate target_rate with
  | None => None
  | Some d =>
      match abs_mean d with
      | None => Some false
      | Some m => Some (Rleb m (ctr_precision n))
      end
  end.

(** The [while True] loop of [evolve_to_convergence], [fuel] iterations at most.
    [first_output] is unbound until the first iteration has set it. *)
Fixpoint evolve_loop (fuel : nat) (x target_rate control_target_rate : tensor1)
    (n : t) (g : Rng) (n_iter : nat) (first_output : option tensor1)
    : outcome (tensor1 * nat * t * Rng) :=
  match fuel with
  | O => OutOfFuel
  | S fuel' =>
      match forward n x (c n) g with
      | None => Raised
      | Some (output_rate, n1, g1) =>
          match evolve_controller n1 output_rate control_target_rate with
          | None => Raised
          | Some n2 =>
              let n_iter := S n_iter in
              let first_output :=
                if (n_iter =? 1)%nat then Some output_rate else first_output in
              match within_precision n2 output_rate target_rate with
              | None => Raised
              | Some true =>
                  match first_output with
                  | Some f => Returned (f, n_iter, n2, g1)
                  | None => Raised
                  end
              | Some false =>
                  evolve_loop fuel' x target_rate control_target_rate n2 g1 n_iter first_output
              end
          end
      end
  end.

(** [parameters()]: the feed-forward weight of every layer, in order. *)
Definition parameters (n : t) : list tensor2 :=
  map (fun l => weight (ControlledLayer.ff l)) (layers n).

Definition evolve_to_convergence (fuel : nat) (n : t) (x target_rate control_target_rate : tensor1)
    (g : Rng) : outcome (tensor1 * nat * t * Rng) :=
  evolve_loop fuel x target_rate control_target_rate (reset n) g 0 None.

End ControlledNetwork.

(** ** Specification-level view of the convergence loop *)

Definition loop_state : Type := (ControlledNetwork.t * Rng)%type.

(** One pass through the body of the loop up to the stopping test: a network
    step on the current controller, then the controller update. *)
Definition loop_body (x control_target_rate : tensor1) (s : loop_state)
    : option (tensor1 * loop_state) :=
  match ControlledNetwork.forward (fst s) x (ControlledNetwork.c (fst s)) (snd s) with
  | None => None
  | Some (o, n1, g1) =>
      match ControlledNetwork.evolve_controller n1 o control_target_rate with
      | None => None
      | Some n2 => Some (o, (n2, g1))
      end
  end.

(** The outputs of [k] consecutive passes, oldest first, and the state they
    leave; [None] when a pass raises. *)
Fixpoint passes (k : nat) (x control_target_rate : tensor1) (s : loop_state)
    : option (list tensor1 * loop_state) :=
  match k with
  | O => Some ([], s)
  | S k' =>
      match loop_body x control_target_rate s with
      | None => None
      | Some (o, s1) =>
          match passes k' x control_target_rate s1 with
          | None => None
          | Some (os, s2) => Some (o :: os, s2)
          end
      end
  end.

(** The stopping test fails on every output but the last, and holds there. *)
Fixpoint stops_at_end (test : tensor1 -> option bool) (os : list tensor1) : Prop :=
  match os with
  | [] => False
  | [o] => test o = Some true
  | o :: os' => test o = Some false /\ stops_at_end test os'
  end.

(** What one plastic call adds to the gradient buffer, as the rule states it:
    [- (outer(post, Apre) - outer(pre, Apost)^T)]. *)
Definition stdp_contribution (pre post apre apost : tensor1) : tensor2 :=
  mneg (msub (outer post apre) (transpose (length apost) (outer pre apost))).

(** The buffer a call starts from: [weight.grad], or zeros when it is unset. *)
Definition grad_or_zeros (L : Linear) : tensor2 :=
  match weight_grad L with
  | None => zeros_like2 (weight L)
  | Some gr => gr
  end.

Definition binary (a : tensor1) : Prop := Forall (fun x => x = 0 \/ x = 1) a.

(** A sequence of calls [layer(inputs, c)] on one layer, in order. *)
Fixpoint forward_seq (l : ControlledLayer.t) (calls : list (tensor1 * tensor1)) (g : Rng)
    : option (list tensor1 * ControlledLayer.t * Rng) :=
  match calls with
  | [] => Some ([], l, g)
  | (inputs, c) :: rest =>
      match ControlledLayer.forward l inputs c g with
      | None => None
      | Some (out, l1, g1) =>
          match forward_seq l1 rest g1 with
          | None => None
          | Some (outs, l2, g2) => Some (out :: outs, l2, g2)
          end
      end
  end.

(** Two layers that agree on every attribute but [stdp_decay]. *)
Definition same_but_decay (a b : ControlledLayer.t) : Prop :=
  ControlledLayer.leak a = ControlledLayer.leak b /\
  ControlledLayer.threshold a = ControlledLayer.threshold b /\
  ControlledLayer.fan_out a = ControlledLayer.fan_out b /\
  ControlledLayer.ff a = ControlledLayer.ff b /\
  ControlledLayer.fb a = ControlledLayer.fb b /\
  ControlledLayer.v a = ControlledLayer.v b /\
  ControlledLayer.mode a = ControlledLayer.mode b /\
  ControlledLayer.Apre a = ControlledLayer.Apre b /\
  ControlledLayer.Apost a = ControlledLayer.Apost b.

(** A layer with plasticity enabled has its traces. *)
Definition plastic_ok (l : ControlledLayer.t) : Prop :=
  truthy (ControlledLayer.stdp_decay l) = true ->
  ControlledLayer.Apre l <> None /\ ControlledLayer.Apost l <> None.

(** The shapes of a stack of layers fed inputs of width [width] and a
    controller of dimension [cdim], as [ControlledNetwork.__init__] builds it. *)
Fixpoint chain_ok (ls : list ControlledLayer.t) (width cdim : nat) : Prop :=
  match ls with
  | [] => True
  | l :: ls' =>
      ControlledLayer.wf l /\
      in_features (ControlledLayer.ff l) = width /\
      in_features (ControlledLayer.fb l) = cdim /\
      plastic_ok l /\
      chain_ok ls' (ControlledLayer.fan_out l) cdim
  end.

Fixpoint out_width (ls : list ControlledLayer.t) (width : nat) : nat :=
  match ls with
  | [] => width
  | l :: ls' => out_width ls' (ControlledLayer.fan_out l)
  end.

(** The network has a last layer and it is in rate mode. *)
Fixpoint ends_in_rate (ls : list ControlledLayer.t) : Prop :=
  match ls with
  | [] => False
  | [l] => ControlledLayer.mode l = rate
  | _ :: ls' => ends_in_rate ls'
  end.

Definition wf_net (n : ControlledNetwork.t) (width : nat) : Prop :=
  chain_ok (ControlledNetwork.layers n) width (length (ControlledNetwork.c n)) /\
  out_width (ControlledNetwork.layers n) width = length (ControlledNetwork.c n).

(** A target no rate output can approach within [prec], not even a rate
    that has saturated at 0 or at 1: every entry is above [1 + prec] or below
    [- prec], while rates lie between 0 and 1. *)
Definition out_of_reach (prec : R) (t : tensor1) : Prop :=
  Forall (fun y => y > 1 + prec \/ y < - prec) t.

Definition unit_open (o : tensor1) : Prop := Forall (fun y => 0 < y < 1) o.

(** Rates between 0 and 1, the bounds included: what holds of a sigmoid
    computed in floating point as well, where it saturates at 0 and at 1. *)
Definition unit_closed (o : tensor1) : Prop := Forall (fun y => 0 <= y <= 1) o.

(** The mean absolute difference of two vectors of the same length, written
    out. *)
Definition mean_abs_diff (o t : tensor1) : R :=
  rsum (map Rabs (map2 Rminus o t)) / INR (length o).

(** ** Example objects *)

Definition g_half : Rng := mkRng (fun _ => 1 / 2) 0.

(** [ControlledLayer(1, 1, 1)] with the default mode, leak and [stdp_tau],
    initial weight 2. *)
Definition ex_spiking : ControlledLayer.t :=
  ControlledLayer.mk (9 / 10) 1 1 (mkLinear 1 [[2]] None) (mkLinear 1 [[1]] None)
    [0] spiking (PyBool false) None None.

(** [ControlledLayer(1, 1, 1, stdp_tau=2)], initial weight 2. *)
Definition ex_plastic : ControlledLayer.t :=
  ControlledLayer.mk (9 / 10) 1 1 (mkLinear 1 [[2]] None) (mkLinear 1 [[1]] None)
    [0] spiking (PyNum (1 - 1 / 2)) (Some [0]) (Some [0]).

(** [ControlledLayer(1, 1, 1, mode="rate")], initial weight 2. *)
Definition ex_rate : ControlledLayer.t :=
  ControlledLayer.mk (9 / 10) 1 1 (mkLinear 1 [[2]] None) (mkLinear 1 [[1]] None)
    [0] rate (PyBool false) None None.

(** A spiking layer of two units, one above the threshold and one at it. *)
Definition ex_pair : ControlledLayer.t :=
  ControlledLayer.mk (9 / 10) 1 2 (mkLinear 1 [[2]; [2]] None)
    (mkLinear 2 [[1; 0]; [0; 1]] None) [2; 1] spiking (PyBool false) None None.

(** The rate layer after its potential has reached 1/2. *)
Definition ex_rate_charged : ControlledLayer.t :=
  ControlledLayer.set_v ex_rate [1 / 2].

(** A rate layer built with [leak=0] whose potential has reached 1/2. *)
Definition ex_noleak : ControlledLayer.t :=
  ControlledLayer.mk 0 1 1 (mkLinear 1 [[2]] None) (mkLinear 1 [[1]] None)
    [1 / 2] rate (PyBool false) None None.

(** [ControlledNetwork([1, 1])] and [ControlledNetwork([1, 1], mode="rate")],
    initial weight 2. *)
Definition ex_net : ControlledNetwork.t :=
  ControlledNetwork.mk (1 / 10) (1 / 100) [0; 1] [ex_spiking] [0].

Definition ex_net_rate : ControlledNetwork.t :=
  ControlledNetwork.mk (1 / 10) (1 / 100) [0; 1] [ex_rate] [0].

(** Two layers with the same configuration and the same two weight matrices;
    potentials, traces and gradient buffers may differ. *)
Definition same_dynamics (a b : ControlledLayer.t) : Prop :=
  ControlledLayer.leak a = ControlledLayer.leak b /\
  ControlledLayer.threshold a = ControlledLayer.threshold b /\
  ControlledLayer.fan_out a = ControlledLayer.fan_out b /\
  in_features (ControlledLayer.ff a) = in_features (ControlledLayer.ff b) /\
  weight (ControlledLayer.ff a) = weight (ControlledLayer.ff b) /\
  in_features (ControlledLayer.fb a) = in_features (ControlledLayer.fb b) /\
  weight (ControlledLayer.fb a) = weight (ControlledLayer.fb b) /\
  ControlledLayer.mode a = ControlledLayer.mode b.

(** What two runs of a call have in common when only the outputs are
    compared: both raise, or both return the same output. *)
Definition same_output {A B : Type} (r1 r2 : option (tensor1 * A * B)) : Prop :=
  match r1, r2 with
  | Some (o1, _, _), Some (o2, _, _) => o1 = o2
  | None, None => True
  | _, _ => False
  end.

(** The integral controller run over a sequence of outputs. *)
Definition integrate_errors (r : R) (ct : tensor1) (os : list tensor1) (c0 : tensor1)
    : tensor1 :=
  fold_left (fun c o => vadd c (smul r (vsub ct o))) os c0.

(** Plasticity is off in a layer: [stdp_decay] is falsy. *)
Definition plasticity_off (l : ControlledLayer.t) : Prop :=
  truthy (ControlledLayer.stdp_decay l) = false.

(** Every row of a matrix has [w] entries. *)
Definition rows_of (w : nat) (m : tensor2) : Prop := Forall (fun row => length row = w) m.

(** The full shape invariant of a layer: the potential and both projections
    have [fan_out] rows, the feed-forward weight has rows of the input width,
    a trace that exists has the width of its side, and a gradient buffer that
    exists has the shape of the feed-forward weight. *)
Definition shaped (l : ControlledLayer.t) : Prop :=
  ControlledLayer.wf l /\
  rows_of (in_features (ControlledLayer.ff l)) (weight (ControlledLayer.ff l)) /\
  (forall a, ControlledLayer.Apre l = Some a ->
             length a = in_features (ControlledLayer.ff l)) /\
  (forall b, ControlledLayer.Apost l = Some b -> length b = ControlledLayer.fan_out l) /\
  (forall gr, ControlledLayer.grad l = Some gr ->
              length gr = ControlledLayer.fan_out l /\
              rows_of (in_features (ControlledLayer.ff l)) gr).

(** Entry [(i, j)] of a matrix. *)
Definition entry (m : tensor2) (i j : nat) : R := nth j (nth i m []) 0.

(** [torch.rand] draws from the half-open interval from 0 to 1. *)
Definition draws_unit (g : Rng) : Prop := forall i, 0 <= draw g i < 1.

(** The spiking example network after some use: a charged potential and a
    controller away from zero. *)
Definition ex_net_used : ControlledNetwork.t :=
  ControlledNetwork.mk (1 / 10) (1 / 100) [0; 1]
    [ControlledLayer.set_v ex_spiking [3 / 4]] [1 / 2].

(** [ControlledNetwork([1])]: a single width, no layer. *)
Definition ex_net_empty : ControlledNetwork.t :=
  ControlledNetwork.mk (1 / 10) (1 / 100) [0; 1] [] [0].

(** ** Tactics for concrete real-number evaluation *)

Ltac r_case :=
  unfold Rabs;
  repeat match goal with |- context [Rcase_abs ?a] => destruct (Rcase_abs a) end;
  lra.

(** ** Elementary facts *)

Lemma Rgtb_true x y : x > y -> Rgtb x y = true.
Proof. intros H; unfold Rgtb; destruct (Rgt_dec x y); [reflexivity | contradiction]. Qed.

Lemma Rgtb_false x y : x <= y -> Rgtb x y = false.
Proof. intros H; unfold Rgtb; destruct (Rgt_dec x y); [lra | reflexivity]. Qed.

Lemma Rleb_true x y : x <= y -> Rleb x y = true.
Proof. intros H; unfold Rleb; destruct (Rle_dec x y); [reflexivity | contradiction]. Qed.

Lemma Rleb_false x y : y < x -> Rleb x y = false.
Proof. intros H; unfold Rleb; destruct (Rle_dec x y); [lra | reflexivity]. Qed.

Lemma truthy_zero r : r = 0 -> truthy (PyNum r) = false.
Proof. intros ->; simpl; destruct (Req_dec_T 0 0); [reflexivity | contradiction]. Qed.

Lemma truthy_nonzero r : r <> 0 -> truthy (PyNum r) = true.
Proof. intros H; simpl; destruct (Req_dec_T r 0); [contradiction | reflexivity]. Qed.

Lemma map2_length {A B C} (f : A -> B -> C) a b :
  length (map2 f a b) = Nat.min (length a) (length b).
Proof.
  revert b; induction a as [|x a IH]; intros [|y b]; simpl; auto.
Qed.

Lemma nth_map2 {A B C} (f : A -> B -> C) a b i da db dc :
  (i < length a)%nat -> (i < length b)%nat ->
  nth i (map2 f a b) dc = f (nth i a da) (nth i b db).
Proof.
  revert b i; induction a as [|x a IH]; intros [|y b] [|i]; simpl; intros Ha Hb;
    try lia; auto.
  apply IH; lia.
Qed.

Lemma nth_map_lt {A B} (f : A -> B) a i da db :
  (i < length a)%nat -> nth i (map f a) db = f (nth i a da).
Proof.
  intros H. rewrite (nth_indep _ db (f da)) by now rewrite length_map.
  apply map_nth.
Qed.

Lemma map2_map_l {A A' B C} (f : A' -> B -> C) (h : A -> A') a b :
  map2 f (map h a) b = map2 (fun x y => f (h x) y) a b.
Proof.
  revert b; induction a as [|x a IH]; intros [|y b]; simpl; auto.
  now rewrite IH.
Qed.

Lemma map2_diag {A C} (f : A -> A -> C) a : map2 f a a = map (fun x => f x x) a.
Proof. induction a as [|x a IH]; simpl; auto. now rewrite IH. Qed.

Lemma map2_ext {A B C} (f f' : A -> B -> C) a b :
  (forall x y, f x y = f' x y) -> map2 f a b = map2 f' a b.
Proof.
  intros E; revert b; induction a as [|x a IH]; intros [|y b]; simpl; auto.
  now rewrite E, IH.
Qed.

(** The in-place LIF update written as the leaky integrator. *)
Lemma integrate_leaky v a b k :
  vadd v (vadd (vadd (smul (- k) v) a) b) = vadd (vadd (smul (1 - k) v) a) b.
Proof.
  unfold vadd, smul.
  revert a b; induction v as [|x v IH]; intros [|y a] [|z b]; simpl; auto.
  rewrite IH; f_equal; lra.
Qed.

(** ** ControlledLayer: the membrane potential *)

Lemma dynamics_stdp_decay l :
  ControlledLayer.stdp_decay (snd (ControlledLayer.dynamics l)) = ControlledLayer.stdp_decay l.
Proof. unfold ControlledLayer.dynamics; destruct (ControlledLayer.mode l); reflexivity. Qed.

(** What a successful [forward] did: both projections accepted their input,
    the dynamics ran on the integrated potential, and the plasticity branch
    left the potential alone. *)
Lemma forward_inv l inputs c g out l' g' :
  ControlledLayer.forward l inputs c g = Some (out, l', g') ->
  length inputs = in_features (ControlledLayer.ff l) /\
  length c = in_features (ControlledLayer.fb l) /\
  let l1 := ControlledLayer.set_v l
              (ControlledLayer.integrate l
                 (matvec (weight (ControlledLayer.ff l)) inputs)
                 (matvec (weight (ControlledLayer.fb l)) c)) in
  out = fst (ControlledLayer.dynamics l1) /\
  ControlledLayer.v l' = ControlledLayer.v (snd (ControlledLayer.dynamics l1)).
Proof.
  unfold ControlledLayer.forward, apply_linear.
  destruct (length inputs =? _)%nat eqn:E1; [|discriminate].
  destruct (length c =? _)%nat eqn:E2; [|discriminate].
  apply Nat.eqb_eq in E1, E2.
  destruct (ControlledLayer.dynamics _) as [outputs l2] eqn:D.
  destruct (truthy _).
  - destruct (ControlledLayer.spike_indicators _ _ _ _) as [[isp osp] g1].
    destruct (ControlledLayer.Apre l2), (ControlledLayer.Apost l2); try discriminate.
    intros H; injection H as <- <- <-. simpl. auto.
  - intros H; injection H as <- <- <-. simpl. auto.
Qed.

(** C1. Every successful call [forward(inputs, c)] integrates the potential as
    [v' = (1 - leak) v + W_ff inputs + W_fb c], both projections being plain
    matrix-vector products without bias, and only then applies the dynamics:
    the output and the stored potential are those of the dynamics run on [v']. *)
Theorem forward_potential_update l inputs c g out l' g' :
  ControlledLayer.forward l inputs c g = Some (out, l', g') ->
  let ff_input := matvec (weight (ControlledLayer.ff l)) inputs in
  let fb_input := matvec (weight (ControlledLayer.fb l)) c in
  let v' := vadd (vadd (smul (1 - ControlledLayer.leak l) (ControlledLayer.v l)) ff_input)
                 fb_input in
  (out, ControlledLayer.v l') =
  (fst (ControlledLayer.dynamics (ControlledLayer.set_v l v')),
   ControlledLayer.v (snd (ControlledLayer.dynamics (ControlledLayer.set_v l v')))).
Proof.
  intros H; apply forward_inv in H as (_ & _ & Hout & Hv).
  cbv zeta in *. unfold ControlledLayer.integrate in *.
  rewrite integrate_leaky in Hout, Hv. now rewrite Hout, Hv.
Qed.

Lemma init_threshold fan_in fan_out cdim m lk tau w l :
  ControlledLayer.init fan_in fan_out cdim m lk tau w = Some l ->
  ControlledLayer.threshold l = 1.
Proof.
  unfold ControlledLayer.init; destruct (ControlledLayer.parse_mode m); [|discriminate].
  intros H; injection H as <-; reflexivity.
Qed.

(** C2. In spiking mode, with the threshold 1.0 set by the constructor, one
    application of the dynamics gives for every unit [i]: output 1 when the
    potential is strictly above 1 and output 0 otherwise (so a potential of
    exactly 1 does not spike); a unit that spiked is left with potential 0 and
    a unit that did not keeps its potential. *)
Theorem spiking_dynamics_threshold_reset l i :
  ControlledLayer.mode l = spiking ->
  ControlledLayer.threshold l = 1 ->
  (i < length (ControlledLayer.v l))%nat ->
  let x := nth i (ControlledLayer.v l) 0 in
  let out := fst (ControlledLayer.dynamics l) in
  let v' := ControlledLayer.v (snd (ControlledLayer.dynamics l)) in
  length out = length (ControlledLayer.v l) /\
  length v' = length (ControlledLayer.v l) /\
  (x > 1 -> nth i out 0 = 1 /\ nth i v' 0 = 0) /\
  (x <= 1 -> nth i out 0 = 0 /\ nth i v' 0 = x) /\
  (x = 1 -> nth i out 0 = 0).
Proof.
  intros Hm Ht Hi x. cbv zeta.
  unfold ControlledLayer.dynamics. rewrite Hm.
  unfold ControlledLayer._spiking_dynamics. simpl. rewrite Ht.
  set (out := map b2r _). set (v' := map2 _ _ _).
  assert (Hout : nth i out 0 = b2r (Rgtb x 1)).
  { subst out x. rewrite map_map.
    exact (nth_map_lt (fun y => b2r (Rgtb y 1)) _ i 0 0 Hi). }
  assert (Hv : nth i v' 0 = if Rgtb x 1 then 0 else x).
  { subst v' x. rewrite map2_map_l, map2_diag.
    exact (nth_map_lt (fun y => if Rgtb y 1 then 0 else y) _ i 0 0 Hi). }
  split; [subst out; now rewrite !length_map|].
  split; [subst v'; rewrite map2_length, length_map; lia|].
  rewrite Hout, Hv. split; [|split]; intros Hx.
  - now rewrite Rgtb_true.
  - now rewrite Rgtb_false.
  - rewrite Rgtb_false by lra. reflexivity.
Qed.

(** ** ControlledLayer: what [forward] leaves alone *)

Lemma dynamics_frame l :
  let l' := snd (ControlledLayer.dynamics l) in
  ControlledLayer.leak l' = ControlledLayer.leak l /\
  ControlledLayer.threshold l' = ControlledLayer.threshold l /\
  ControlledLayer.fan_out l' = ControlledLayer.fan_out l /\
  ControlledLayer.ff l' = ControlledLayer.ff l /\
  ControlledLayer.fb l' = ControlledLayer.fb l /\
  ControlledLayer.mode l' = ControlledLayer.mode l /\
  ControlledLayer.stdp_decay l' = ControlledLayer.stdp_decay l /\
  ControlledLayer.Apre l' = ControlledLayer.Apre l /\
  ControlledLayer.Apost l' = ControlledLayer.Apost l.
Proof.
  unfold ControlledLayer.dynamics; destruct (ControlledLayer.mode l) eqn:E; simpl;
    rewrite ?E; repeat split; reflexivity.
Qed.

(** A successful call, opened up: the plastic branch and the plain branch. *)
Lemma forward_cases l inputs c g out l' g' :
  ControlledLayer.forward l inputs c g = Some (out, l', g') ->
  let l2 := snd (ControlledLayer.dynamics
                   (ControlledLayer.set_v l
                      (ControlledLayer.integrate l
                         (matvec (weight (ControlledLayer.ff l)) inputs)
                         (matvec (weight (ControlledLayer.fb l)) c)))) in
  (truthy (ControlledLayer.stdp_decay l) = false /\ l' = l2 /\ g' = g) \/
  (truthy (ControlledLayer.stdp_decay l) = true /\
   exists apre0 apost0 pre post,
     ControlledLayer.Apre l = Some apre0 /\
     ControlledLayer.Apost l = Some apost0 /\
     ControlledLayer.spike_indicators l inputs out g = (pre, post, g') /\
     let decay := as_num (ControlledLayer.stdp_decay l) in
     let apre := vadd (smul decay apre0) pre in
     let apost := vadd (smul decay apost0) post in
     l' = ControlledLayer.set_plasticity l2 apre apost
            (msub (grad_or_zeros (ControlledLayer.ff l))
                  (ControlledLayer.stdp_update pre post apre apost))).
Proof.
  unfold ControlledLayer.forward, apply_linear.
  destruct (length inputs =? _)%nat; [|discriminate].
  destruct (length c =? _)%nat; [|discriminate].
  set (l1 := ControlledLayer.set_v l _).
  pose proof (dynamics_frame l1) as (_ & _ & _ & Hff & _ & Hm & Hd & Hpre & Hpost).
  destruct (ControlledLayer.dynamics l1) as [outputs l2] eqn:D. simpl in *.
  rewrite Hd. destruct (truthy (ControlledLayer.stdp_decay l)) eqn:T.
  - destruct (ControlledLayer.spike_indicators l2 _ _ _) as [[pre post] g1] eqn:S.
    rewrite Hpre, Hpost.
    destruct (ControlledLayer.Apre l) as [apre0|]; [|discriminate].
    destruct (ControlledLayer.Apost l) as [apost0|]; [|discriminate].
    intros H; injection H as <- <- <-. right. split; [reflexivity|].
    exists apre0, apost0, pre, post. repeat split.
    + unfold ControlledLayer.spike_indicators in *. now rewrite <- Hm.
    + cbv zeta. unfold grad_or_zeros. now rewrite Hff.
  - intros H; injection H as <- <- <-. left. auto.
Qed.

Lemma forward_frame l inputs c g out l' g' :
  ControlledLayer.forward l inputs c g = Some (out, l', g') ->
  ControlledLayer.leak l' = ControlledLayer.leak l /\
  ControlledLayer.threshold l' = ControlledLayer.threshold l /\
  ControlledLayer.fan_out l' = ControlledLayer.fan_out l /\
  in_features (ControlledLayer.ff l') = in_features (ControlledLayer.ff l) /\
  weight (ControlledLayer.ff l') = weight (ControlledLayer.ff l) /\
  ControlledLayer.fb l' = ControlledLayer.fb l /\
  ControlledLayer.mode l' = ControlledLayer.mode l /\
  ControlledLayer.stdp_decay l' = ControlledLayer.stdp_decay l.
Proof.
  intros H. apply forward_cases in H. cbv zeta in H.
  match type of H with context [ControlledLayer.dynamics ?x] =>
    pose proof (dynamics_frame x) as (F1 & F2 & F3 & F4 & F5 & F6 & F7 & _) end.
  simpl in *.
  destruct H as [(_ & -> & _) | (_ & a & b & p & q & _ & _ & _ & ->)]; simpl;
    rewrite ?F4; repeat split; assumption.
Qed.

(** ** ControlledLayer: plasticity *)

Lemma vsub_update_as_add (a t o : tensor1) :
  vsub a (vadd (map Ropp t) o) = vadd a (map Ropp (vsub o t)).
Proof.
  unfold vsub, vadd.
  revert t o; induction a as [|x a IH]; intros [|y t] [|z o]; simpl; auto.
  rewrite IH; f_equal; lra.
Qed.

(** Subtracting the coded update is adding the contribution of the rule. *)
Lemma msub_update_as_add (gr : tensor2) pre post apre apost :
  msub gr (ControlledLayer.stdp_update pre post apre apost) =
  madd gr (stdp_contribution pre post apre apost).
Proof.
  unfold ControlledLayer.stdp_update, stdp_contribution, msub, madd, mneg.
  generalize (transpose (length apost) (outer pre apost)) as T.
  generalize (outer post apre) as O.
  induction gr as [|a gr IH]; intros [|o O] [|t T]; simpl; auto.
  rewrite IH, vsub_update_as_add. reflexivity.
Qed.

Lemma init_stdp_decay fan_in fan_out cdim m lk tau w l :
  ControlledLayer.init fan_in fan_out cdim m lk tau w = Some l ->
  truthy tau = true ->
  ControlledLayer.stdp_decay l = PyNum (1 - 1 / as_num tau).
Proof.
  unfold ControlledLayer.init; destruct (ControlledLayer.parse_mode m); [|discriminate].
  intros H T; injection H as <-; simpl. now rewrite T.
Qed.

(** One plastic call: traces first, then the buffer, with the new traces. *)
Lemma forward_plastic l inputs c g out l' g' :
  ControlledLayer.forward l inputs c g = Some (out, l', g') ->
  truthy (ControlledLayer.stdp_decay l) = true ->
  exists apre0 apost0 pre post,
    ControlledLayer.Apre l = Some apre0 /\
    ControlledLayer.Apost l = Some apost0 /\
    ControlledLayer.spike_indicators l inputs out g = (pre, post, g') /\
    let decay := as_num (ControlledLayer.stdp_decay l) in
    let apre := vadd (smul decay apre0) pre in
    let apost := vadd (smul decay apost0) post in
    ControlledLayer.Apre l' = Some apre /\
    ControlledLayer.Apost l' = Some apost /\
    weight_grad (ControlledLayer.ff l') =
      Some (madd (grad_or_zeros (ControlledLayer.ff l))
                 (stdp_contribution pre post apre apost)).
Proof.
  intros H T. apply forward_cases in H. cbv zeta in H.
  destruct H as [(T' & _) | (_ & a & b & p & q & Ha & Hb & Hs & ->)]; [congruence|].
  exists a, b, p, q. simpl. rewrite msub_update_as_add. repeat split; assumption.
Qed.

(** C5. With plasticity enabled (decay [1 - 1/tau]), a call updates the traces
    as [Apre' = Apre decay + pre] and [Apost' = Apost decay + post] and adds
    [-(outer(post, Apre') - outer(pre, Apost')^T)], taken at the updated
    traces, to the gradient buffer.  The layer never clears the buffer: after
    two consecutive calls it holds the starting buffer plus the contribution
    of the first call plus that of the second, each at the traces of its own
    call. *)
Theorem plasticity_accumulates l tau x1 c1 g0 o1 l1 g1 x2 c2 o2 l2 g2 :
  ControlledLayer.stdp_decay l = PyNum (1 - 1 / tau) ->
  truthy (ControlledLayer.stdp_decay l) = true ->
  ControlledLayer.forward l x1 c1 g0 = Some (o1, l1, g1) ->
  ControlledLayer.forward l1 x2 c2 g1 = Some (o2, l2, g2) ->
  exists apre0 apost0 pre1 post1 pre2 post2,
    ControlledLayer.Apre l = Some apre0 /\
    ControlledLayer.Apost l = Some apost0 /\
    ControlledLayer.spike_indicators l x1 o1 g0 = (pre1, post1, g1) /\
    ControlledLayer.spike_indicators l x2 o2 g1 = (pre2, post2, g2) /\
    let decay := 1 - 1 / tau in
    let apre1 := vadd (smul decay apre0) pre1 in
    let apost1 := vadd (smul decay apost0) post1 in
    let apre2 := vadd (smul decay apre1) pre2 in
    let apost2 := vadd (smul decay apost1) post2 in
    let k1 := stdp_contribution pre1 post1 apre1 apost1 in
    let k2 := stdp_contribution pre2 post2 apre2 apost2 in
    ControlledLayer.Apre l1 = Some apre1 /\
    ControlledLayer.Apost l1 = Some apost1 /\
    weight_grad (ControlledLayer.ff l1) =
      Some (madd (grad_or_zeros (ControlledLayer.ff l)) k1) /\
    ControlledLayer.Apre l2 = Some apre2 /\
    ControlledLayer.Apost l2 = Some apost2 /\
    weight_grad (ControlledLayer.ff l2) =
      Some (madd (madd (grad_or_zeros (ControlledLayer.ff l)) k1) k2).
Proof.
  intros Hd T E1 E2.
  pose proof (forward_frame _ _ _ _ _ _ _ E1) as (_ & _ & _ & _ & _ & _ & Hm & Hd1).
  pose proof (forward_plastic _ _ _ _ _ _ _ E1 T)
    as (a0 & b0 & p1 & q1 & Ha & Hb & S1 & Ha1 & Hb1 & G1).
  assert (T1 : truthy (ControlledLayer.stdp_decay l1) = true) by now rewrite Hd1.
  pose proof (forward_plastic _ _ _ _ _ _ _ E2 T1)
    as (a1 & b1 & p2 & q2 & Ha' & Hb' & S2 & Ha2 & Hb2 & G2).
  rewrite Ha1 in Ha'. rewrite Hb1 in Hb'. injection Ha' as <-. injection Hb' as <-.
  rewrite Hd1 in *. rewrite Hd in *. simpl as_num in *.
  exists a0, b0, p1, q1, p2, q2. cbv zeta.
  repeat split; try assumption.
  - unfold ControlledLayer.spike_indicators in *. now rewrite <- Hm.
  - rewrite G2. unfold grad_or_zeros at 1. now rewrite G1.
Qed.

(** ** ControlledNetwork: the feedback controller *)

Lemma broadcast2_same f a b :
  length a = length b -> broadcast2 f a b = Some (map2 f a b).
Proof. intros H; unfold broadcast2; now rewrite H, Nat.eqb_refl. Qed.

Lemma iadd_same a b : length a = length b -> iadd a b = Some (vadd a b).
Proof. intros H; unfold iadd; now rewrite H, Nat.eqb_refl. Qed.

Lemma vadd_length a b : length (vadd a b) = Nat.min (length a) (length b).
Proof. apply map2_length. Qed.

Lemma vsub_length a b : length (vsub a b) = Nat.min (length a) (length b).
Proof. apply map2_length. Qed.

Lemma smul_length k a : length (smul k a) = length a.
Proof. apply length_map. Qed.

Lemma evolve_controller_same_shape n out ct :
  length ct = length out -> length (ControlledNetwork.c n) = length out ->
  ControlledNetwork.evolve_controller n out ct =
  Some (ControlledNetwork.set_c n
          (vadd (ControlledNetwork.c n)
                (smul (ControlledNetwork.controller_rate n) (vsub ct out)))).
Proof.
  intros H1 H2. unfold ControlledNetwork.evolve_controller.
  rewrite broadcast2_same by assumption. fold (vsub ct out).
  rewrite iadd_same; [reflexivity|].
  rewrite smul_length, vsub_length. lia.
Qed.

(** C6. [evolve_controller] is the integral law
    [c' = c + controller_rate (control_target - current_output)]; two
    consecutive updates with errors [e1], [e2] and rate [r] from [c0] leave
    the controller at [c0 + r e1 + r e2], entry by entry. *)
Theorem controller_integral_law n o1 t1 o2 t2 :
  length t1 = length o1 -> length (ControlledNetwork.c n) = length o1 ->
  length t2 = length o2 -> length o2 = length o1 ->
  let r := ControlledNetwork.controller_rate n in
  let c0 := ControlledNetwork.c n in
  let e1 := vsub t1 o1 in
  let e2 := vsub t2 o2 in
  exists n1 n2,
    ControlledNetwork.evolve_controller n o1 t1 = Some n1 /\
    ControlledNetwork.c n1 = vadd c0 (smul r e1) /\
    ControlledNetwork.evolve_controller n1 o2 t2 = Some n2 /\
    ControlledNetwork.c n2 = vadd (vadd c0 (smul r e1)) (smul r e2) /\
    forall i, (i < length c0)%nat ->
      nth i (ControlledNetwork.c n2) 0 = nth i c0 0 + r * nth i e1 0 + r * nth i e2 0.
Proof.
  intros H1 H2 H3 H4 r c0 e1 e2.
  assert (L1 : length e1 = length c0) by (subst e1 c0; rewrite vsub_length; lia).
  assert (L2 : length e2 = length c0) by (subst e2 c0; rewrite vsub_length; lia).
  assert (L3 : length (vadd c0 (smul r e1)) = length c0)
    by (rewrite vadd_length, smul_length; lia).
  eexists _, _. split; [apply evolve_controller_same_shape; assumption|].
  split; [reflexivity|].
  split; [apply evolve_controller_same_shape; simpl; [lia|]|].
  { fold r c0 e1. rewrite L3. subst c0. lia. }
  split; [reflexivity|].
  intros i Hi. simpl. fold r c0 e1 e2. unfold vadd, smul.
  rewrite (nth_map2 Rplus _ _ i 0 0 0) by (fold (smul r e2); fold (smul r e1);
    fold (vadd c0 (smul r e1)); rewrite ?smul_length; lia).
  rewrite (nth_map2 Rplus _ _ i 0 0 0) by (rewrite ?length_map; lia).
  rewrite (nth_map_lt (Rmult r) e1 i 0 0) by lia.
  rewrite (nth_map_lt (Rmult r) e2 i 0 0) by lia.
  reflexivity.
Qed.

(** ** The example objects are what the constructors build *)

Lemma ex_spiking_init :
  ControlledLayer.init 1 1 1 "spiking" (9 / 10) (PyBool false) (fun _ _ => 2)
  = Some ex_spiking.
Proof. reflexivity. Qed.

Lemma ex_rate_init :
  ControlledLayer.init 1 1 1 "rate" (9 / 10) (PyBool false) (fun _ _ => 2) = Some ex_rate.
Proof. reflexivity. Qed.

Lemma ex_plastic_init :
  ControlledLayer.init 1 1 1 "spiking" (9 / 10) (PyNum 2) (fun _ _ => 2) = Some ex_plastic.
Proof.
  unfold ControlledLayer.init. cbn -[truthy].
  rewrite (truthy_nonzero 2) by lra. rewrite (truthy_nonzero (1 - 1 / 2)) by lra.
  reflexivity.
Qed.

Lemma ex_net_init :
  ControlledNetwork.init [1; 1]%nat "spiking" (9 / 10) (1 / 10) (PyBool false) (1 / 100)
    [0; 1] (fun _ _ _ => 2) = Some ex_net.
Proof. reflexivity. Qed.

Lemma ex_net_rate_init :
  ControlledNetwork.init [1; 1]%nat "rate" (9 / 10) (1 / 10) (PyBool false) (1 / 100)
    [0; 1] (fun _ _ _ => 2) = Some ex_net_rate.
Proof. reflexivity. Qed.

(** ** ControlledLayer: spike indicators *)

Lemma binary_b2r (bs : list bool) : binary (map b2r bs).
Proof.
  induction bs as [|b bs IH]; constructor; [destruct b; simpl; auto | exact IH].
Qed.

Lemma spikify_binary r g : binary (fst (spikify r g)).
Proof.
  unfold spikify, rand_like. simpl.
  generalize (map (draw g) (seq (pos g) (length r))) as u.
  induction r as [|x r IH]; intros [|y u]; simpl; try constructor.
  - destruct (Rgtb x y); simpl; auto.
  - apply IH.
Qed.

Lemma spiking_output_binary l :
  ControlledLayer.mode l = spiking -> binary (fst (ControlledLayer.dynamics l)).
Proof.
  intros Hm. unfold ControlledLayer.dynamics. rewrite Hm. simpl. apply binary_b2r.
Qed.

(** C7, as the code has it.  With plasticity enabled, the post-synaptic
    indicator of a call is binary in both modes and the pre-synaptic indicator
    is binary in rate mode (both are Bernoulli samples there); in spiking mode
    the pre-synaptic indicator is the input vector itself, whatever it holds. *)
Theorem spike_indicators_binary l inputs c g out l' g' pre post g2 :
  truthy (ControlledLayer.stdp_decay l) = true ->
  ControlledLayer.forward l inputs c g = Some (out, l', g') ->
  ControlledLayer.spike_indicators l inputs out g = (pre, post, g2) ->
  binary post /\
  (ControlledLayer.mode l = rate -> binary pre) /\
  (ControlledLayer.mode l = spiking -> pre = inputs).
Proof.
  intros _ H S. apply forward_inv in H as (_ & _ & Hout & _). cbv zeta in Hout.
  unfold ControlledLayer.spike_indicators in S.
  destruct (ControlledLayer.mode l) eqn:Hm.
  - injection S as <- <- <-. split; [|split; [discriminate | reflexivity]].
    rewrite Hout. apply spiking_output_binary. exact Hm.
  - pose proof (spikify_binary inputs g) as B1.
    destruct (spikify inputs g) as [isp g1].
    pose proof (spikify_binary out g1) as B2.
    destruct (spikify out g1) as [osp g3].
    injection S as <- <- <-. simpl in *. split; [exact B2|].
    split; [intros _; exact B1 | discriminate].
Qed.

(** A spiking layer with plasticity fed the input 1/2 uses 1/2 as its
    pre-synaptic indicator, and the pre-synaptic trace becomes 1/2. *)
Lemma spike_indicators_not_binary :
  truthy (ControlledLayer.stdp_decay ex_plastic) = true /\
  exists out l' g',
    ControlledLayer.forward ex_plastic [1 / 2] [0] g_half = Some (out, l', g') /\
    fst (fst (ControlledLayer.spike_indicators ex_plastic [1 / 2] out g_half)) = [1 / 2] /\
    ~ binary (fst (fst (ControlledLayer.spike_indicators ex_plastic [1 / 2] out g_half))) /\
    exists a, ControlledLayer.Apre l' = Some [a] /\ a = 1 / 2.
Proof.
  assert (T : truthy (PyNum (1 - 1 / 2)) = true) by (apply truthy_nonzero; lra).
  split; [exact T|].
  unfold ControlledLayer.forward. cbn -[truthy]. rewrite T.
  eexists _, _, _. split; [reflexivity|]. split; [reflexivity|]. split.
  - intros B. inversion B as [|x r [H|H] _]; lra.
  - eexists. split; [reflexivity|]. lra.
Qed.

(** ** ControlledLayer: decay under zero drive *)

Lemma dot_zeros row n : dot row (zeros n) = 0.
Proof.
  revert n; induction row as [|x row IH]; intros [|n]; simpl; auto.
  fold (zeros n). rewrite IH. lra.
Qed.

Lemma matvec_zeros W n : matvec W (zeros n) = zeros (length W).
Proof.
  unfold matvec. induction W as [|row W IH]; simpl; [reflexivity|].
  now rewrite dot_zeros, IH.
Qed.

Lemma nth_zeros i n : nth i (zeros n) 0 = 0.
Proof.
  unfold zeros. destruct (Nat.lt_ge_cases i n) as [H|H].
  - now apply nth_repeat_lt.
  - apply nth_overflow. now rewrite repeat_length.
Qed.

(** The potential a layer holds after one call with zero input and zero
    controller, unit by unit: the leaked potential, or 0 where it spiked. *)
Lemma zero_drive_potential l n m g out l' g' i :
  ControlledLayer.wf l ->
  ControlledLayer.forward l (zeros n) (zeros m) g = Some (out, l', g') ->
  (i < ControlledLayer.fan_out l)%nat ->
  let x := nth i (ControlledLayer.v l) 0 in
  nth i (ControlledLayer.v l') 0 = (1 - ControlledLayer.leak l) * x \/
  (nth i (ControlledLayer.v l') 0 = 0 /\ ControlledLayer.mode l = spiking).
Proof.
  intros (W1 & W2 & W3) H Hi x.
  apply forward_inv in H as (_ & _ & _ & Hv). cbv zeta in Hv.
  unfold ControlledLayer.integrate in Hv. rewrite integrate_leaky in Hv.
  rewrite !matvec_zeros in Hv. rewrite W1, W2 in Hv.
  set (v1 := vadd _ _) in Hv.
  assert (L1 : length v1 = ControlledLayer.fan_out l).
  { subst v1. rewrite !vadd_length, smul_length. unfold zeros.
    rewrite repeat_length. lia. }
  assert (N1 : nth i v1 0 = (1 - ControlledLayer.leak l) * x).
  { subst v1. unfold vadd.
    rewrite (nth_map2 Rplus _ _ i 0 0 0);
      [| fold (vadd (smul (1 - ControlledLayer.leak l) (ControlledLayer.v l))
                    (zeros (ControlledLayer.fan_out l)));
         rewrite vadd_length, smul_length; unfold zeros; rewrite repeat_length; lia
       | unfold zeros; rewrite repeat_length; lia].
    rewrite (nth_map2 Rplus _ _ i 0 0 0);
      [| rewrite smul_length; lia | unfold zeros; rewrite repeat_length; lia].
    rewrite !nth_zeros. unfold smul.
    rewrite (nth_map_lt (Rmult (1 - ControlledLayer.leak l)) _ i 0 0) by lia.
    subst x. lra. }
  rewrite Hv. unfold ControlledLayer.dynamics. simpl.
  destruct (ControlledLayer.mode l) eqn:Hm; simpl.
  - rewrite map2_map_l, map2_diag.
    rewrite (nth_map_lt (fun y => if Rgtb y (ControlledLayer.threshold l) then 0 else y)
               v1 i 0 0) by lia.
    destruct (Rgtb _ _); [right; auto | left; exact N1].
  - left. exact N1.
Qed.

(** C8, as the code has it.  For a leak in [0,1), one call with a zero input
    and a zero controller never increases the magnitude of any unit's
    potential, and decreases it strictly for every unit whose potential is
    not zero when the leak is positive. *)
Theorem zero_drive_decay l n m g out l' g' i :
  ControlledLayer.wf l ->
  0 <= ControlledLayer.leak l < 1 ->
  ControlledLayer.forward l (zeros n) (zeros m) g = Some (out, l', g') ->
  (i < ControlledLayer.fan_out l)%nat ->
  let x := nth i (ControlledLayer.v l) 0 in
  let x' := nth i (ControlledLayer.v l') 0 in
  Rabs x' <= Rabs x /\
  (0 < ControlledLayer.leak l -> x <> 0 -> Rabs x' < Rabs x).
Proof.
  intros W Hl H Hi x x'.
  pose proof (Rabs_pos x) as P.
  destruct (zero_drive_potential l n m g out l' g' i W H Hi) as [E | [E _]];
    fold x' in E; fold x in E; rewrite E.
  - rewrite Rabs_mult, (Rabs_right (1 - ControlledLayer.leak l)) by lra.
    split; [nra|]. intros L X. apply Rabs_pos_lt in X. nra.
  - rewrite Rabs_R0. split; [exact P|]. intros _ X. now apply Rabs_pos_lt.
Qed.

(** A freshly built layer with the default leak 0.9, called with a zero input
    and a zero controller: the potential was 0 and stays 0.  A layer with leak
    0 and potential 1/2: the potential stays 1/2.  Neither decays strictly. *)
Lemma zero_drive_no_strict_decay :
  (ControlledLayer.wf ex_rate /\ 0 <= ControlledLayer.leak ex_rate < 1 /\
   exists out l' g',
     ControlledLayer.forward ex_rate (zeros 1) (zeros 1) g_half = Some (out, l', g') /\
     ~ (Rabs (nth 0 (ControlledLayer.v l') 0)
        < Rabs (nth 0 (ControlledLayer.v ex_rate) 0))) /\
  (ControlledLayer.wf ex_noleak /\ 0 <= ControlledLayer.leak ex_noleak < 1 /\
   exists out l' g',
     ControlledLayer.forward ex_noleak (zeros 1) (zeros 1) g_half = Some (out, l', g') /\
     ~ (Rabs (nth 0 (ControlledLayer.v l') 0)
        < Rabs (nth 0 (ControlledLayer.v ex_noleak) 0))).
Proof.
  split.
  - split; [repeat split|]. split; [simpl; lra|].
    eexists _, _, _. split; [reflexivity|]. simpl.
    replace (0 + (- (9 / 10) * 0 + (2 * 0 + 0) + (1 * 0 + 0))) with 0 by lra.
    lra.
  - split; [repeat split|]. split; [simpl; lra|].
    eexists _, _, _. split; [reflexivity|]. simpl.
    replace (1 / 2 + (- 0 * (1 / 2) + (2 * 0 + 0) + (1 * 0 + 0))) with (1 / 2) by lra.
    lra.
Qed.

(** ** ControlledNetwork: reset *)

(** C9. [reset()] zeroes the controller vector and every layer's potential
    and touches nothing else: traces, gradient buffers, both weight matrices
    and every configuration field are as before. *)
Theorem reset_frame n :
  let n' := ControlledNetwork.reset n in
  Forall (fun x => x = 0) (ControlledNetwork.c n') /\
  length (ControlledNetwork.c n') = length (ControlledNetwork.c n) /\
  ControlledNetwork.controller_rate n' = ControlledNetwork.controller_rate n /\
  ControlledNetwork.ctr_precision n' = ControlledNetwork.ctr_precision n /\
  ControlledNetwork.target_rates n' = ControlledNetwork.target_rates n /\
  Forall2 (fun l l' =>
             ControlledLayer.v l' = zeros (ControlledLayer.fan_out l) /\
             ControlledLayer.Apre l' = ControlledLayer.Apre l /\
             ControlledLayer.Apost l' = ControlledLayer.Apost l /\
             ControlledLayer.ff l' = ControlledLayer.ff l /\
             ControlledLayer.fb l' = ControlledLayer.fb l /\
             ControlledLayer.leak l' = ControlledLayer.leak l /\
             ControlledLayer.threshold l' = ControlledLayer.threshold l /\
             ControlledLayer.fan_out l' = ControlledLayer.fan_out l /\
             ControlledLayer.mode l' = ControlledLayer.mode l /\
             ControlledLayer.stdp_decay l' = ControlledLayer.stdp_decay l)
          (ControlledNetwork.layers n) (ControlledNetwork.layers n').
Proof.
  cbv zeta. unfold ControlledNetwork.reset. simpl.
  split; [|split; [apply length_map|]].
  - induction (ControlledNetwork.c n); simpl; constructor; auto.
  - repeat (split; [reflexivity|]).
    induction (ControlledNetwork.layers n) as [|l ls IH]; simpl; constructor.
    + repeat split; reflexivity.
    + exact IH.
Qed.

(** ** ControlledLayer: a time constant of 1 *)

(** Without plasticity a call is the integration and the dynamics, nothing
    more. *)
Lemma forward_plain l inputs c g :
  truthy (ControlledLayer.stdp_decay l) = false ->
  ControlledLayer.forward l inputs c g =
  match apply_linear (ControlledLayer.ff l) inputs, apply_linear (ControlledLayer.fb l) c with
  | Some ff_input, Some fb_input =>
      let r := ControlledLayer.dynamics
                 (ControlledLayer.set_v l (ControlledLayer.integrate l ff_input fb_input)) in
      Some (fst r, snd r, g)
  | _, _ => None
  end.
Proof.
  intros T. unfold ControlledLayer.forward.
  destruct (apply_linear _ inputs) as [a|]; [|reflexivity].
  destruct (apply_linear _ c) as [b|]; [|reflexivity].
  pose proof (dynamics_stdp_decay
                (ControlledLayer.set_v l (ControlledLayer.integrate l a b))) as D.
  destruct (ControlledLayer.dynamics _) as [o l2]. simpl in *.
  now rewrite D, T.
Qed.

Lemma dynamics_same_but_decay a b :
  same_but_decay a b ->
  fst (ControlledLayer.dynamics a) = fst (ControlledLayer.dynamics b) /\
  same_but_decay (snd (ControlledLayer.dynamics a)) (snd (ControlledLayer.dynamics b)).
Proof.
  intros (H1 & H2 & H3 & H4 & H5 & H6 & H7 & H8 & H9).
  unfold ControlledLayer.dynamics, ControlledLayer._spiking_dynamics,
    ControlledLayer._rate_dynamics.
  rewrite H7. destruct (ControlledLayer.mode b) eqn:Hb; simpl; rewrite ?H2, ?H6;
    (split; [reflexivity | repeat split; simpl; congruence]).
Qed.

(** One call on two layers that differ in a falsy [stdp_decay] only. *)
Lemma forward_same_but_decay a b inputs c g :
  same_but_decay a b ->
  truthy (ControlledLayer.stdp_decay a) = false ->
  truthy (ControlledLayer.stdp_decay b) = false ->
  match ControlledLayer.forward a inputs c g, ControlledLayer.forward b inputs c g with
  | Some (oa, a', ga), Some (ob, b', gb) =>
      oa = ob /\ ga = g /\ gb = g /\ same_but_decay a' b' /\
      truthy (ControlledLayer.stdp_decay a') = false /\
      truthy (ControlledLayer.stdp_decay b') = false /\
      ControlledLayer.ff a' = ControlledLayer.ff a /\
      ControlledLayer.Apre a' = ControlledLayer.Apre a /\
      ControlledLayer.Apost a' = ControlledLayer.Apost a
  | None, None => True
  | _, _ => False
  end.
Proof.
  intros S Ta Tb. rewrite (forward_plain a), (forward_plain b) by assumption.
  pose proof S as (H1 & H2 & H3 & H4 & H5 & H6 & H7 & H8 & H9).
  rewrite H4, H5.
  destruct (apply_linear _ inputs) as [x|]; [|exact I].
  destruct (apply_linear _ c) as [y|]; [|exact I].
  cbv zeta.
  set (a1 := ControlledLayer.set_v a _). set (b1 := ControlledLayer.set_v b _).
  assert (S1 : same_but_decay a1 b1).
  { subst a1 b1. unfold ControlledLayer.integrate. rewrite H1, H6.
    repeat split; assumption. }
  destruct (dynamics_same_but_decay a1 b1 S1) as (E & S2).
  pose proof (dynamics_frame a1) as (_ & _ & _ & F4 & _ & _ & F7 & F8 & F9).
  pose proof (dynamics_stdp_decay b1) as G7.
  cbv zeta in *. rewrite F7, G7, F4, F8, F9.
  split; [exact E|]. do 2 (split; [reflexivity|]). split; [exact S2|].
  subst a1 b1. simpl. repeat split; assumption || reflexivity.
Qed.

(** C10. A layer built with [stdp_tau = 1] gets [stdp_decay = 1 - 1/1 = 0],
    which is falsy: no traces are created, and over any sequence of calls it
    produces the outputs and potentials of the layer built with
    [stdp_tau = False], draws no random numbers and never writes a gradient. *)
Theorem stdp_tau_one_disables_plasticity fan_in fan_out cdim m lk w :
  match ControlledLayer.init fan_in fan_out cdim m lk (PyNum 1) w,
        ControlledLayer.init fan_in fan_out cdim m lk (PyBool false) w with
  | Some l1, Some l0 =>
      ControlledLayer.stdp_decay l1 = PyNum (1 - 1 / 1) /\
      as_num (ControlledLayer.stdp_decay l1) = 0 /\
      truthy (ControlledLayer.stdp_decay l1) = false /\
      ControlledLayer.Apre l1 = None /\
      ControlledLayer.Apost l1 = None /\
      weight_grad (ControlledLayer.ff l1) = None /\
      forall calls g,
        match forward_seq l1 calls g, forward_seq l0 calls g with
        | Some (outs1, l1', g1), Some (outs0, l0', g0) =>
            outs1 = outs0 /\ ControlledLayer.v l1' = ControlledLayer.v l0' /\
            g1 = g /\ g0 = g /\
            weight_grad (ControlledLayer.ff l1') = None /\
            ControlledLayer.Apre l1' = None /\
            ControlledLayer.Apost l1' = None
        | None, None => True
        | _, _ => False
        end
  | None, None => True
  | _, _ => False
  end.
Proof.
  unfold ControlledLayer.init. destruct (ControlledLayer.parse_mode m) as [md|]; [|exact I].
  assert (T1 : truthy (PyNum 1) = true) by (apply truthy_nonzero; lra).
  assert (T0 : truthy (PyNum (1 - 1 / 1)) = false) by (apply truthy_zero; lra).
  rewrite T1. cbn [as_num]. rewrite T0.
  change (truthy (PyBool false)) with false. cbv iota.
  set (l1 := ControlledLayer.mk _ _ _ _ _ _ _ (PyNum _) _ _).
  set (l0 := ControlledLayer.mk _ _ _ _ _ _ _ (PyBool false) _ _).
  split; [reflexivity|]. split; [simpl; lra|]. split; [exact T0|].
  do 3 (split; [reflexivity|]).
  assert (S : same_but_decay l1 l0) by (repeat split; reflexivity).
  assert (Ta : truthy (ControlledLayer.stdp_decay l1) = false) by exact T0.
  assert (Tb : truthy (ControlledLayer.stdp_decay l0) = false) by reflexivity.
  assert (Gr : weight_grad (ControlledLayer.ff l1) = None) by reflexivity.
  assert (Pa : ControlledLayer.Apre l1 = None) by reflexivity.
  assert (Pb : ControlledLayer.Apost l1 = None) by reflexivity.
  clearbody l1 l0. intros calls.
  revert l1 l0 S Ta Tb Gr Pa Pb.
  induction calls as [|[x c] calls IH]; intros l1 l0 S Ta Tb Gr Pa Pb g; simpl.
  - destruct S as (_ & _ & _ & _ & _ & Hv & _). repeat split; assumption.
  - pose proof (forward_same_but_decay l1 l0 x c g S Ta Tb) as F.
    destruct (ControlledLayer.forward l1 x c g) as [[[oa a'] ga]|],
             (ControlledLayer.forward l0 x c g) as [[[ob b'] gb]|]; try contradiction;
      [|exact I].
    destruct F as (-> & -> & -> & S' & Ta' & Tb' & Fa & Fp & Fq).
    specialize (IH a' b' S' Ta' Tb').
    rewrite Fa, Fp, Fq in IH. specialize (IH Gr Pa Pb g).
    destruct (forward_seq a' calls g) as [[[os1 a2] g1]|],
             (forward_seq b' calls g) as [[[os0 b2] g0]|]; try contradiction;
      [|exact I].
    destruct IH as (-> & IH). split; [reflexivity | exact IH].
Qed.

(** ** ControlledNetwork: the convergence loop *)

Lemma forward_net_frame n x c g o n1 g1 :
  ControlledNetwork.forward n x c g = Some (o, n1, g1) ->
  ControlledNetwork.c n1 = ControlledNetwork.c n /\
  ControlledNetwork.ctr_precision n1 = ControlledNetwork.ctr_precision n /\
  ControlledNetwork.controller_rate n1 = ControlledNetwork.controller_rate n.
Proof.
  unfold ControlledNetwork.forward.
  destruct (ControlledNetwork.forward_layers _ _ _ _) as [[[y ls] g']|]; [|discriminate].
  intros H; injection H as <- <- <-. simpl. auto.
Qed.

Lemma evolve_controller_frame n o ct n2 :
  ControlledNetwork.evolve_controller n o ct = Some n2 ->
  ControlledNetwork.layers n2 = ControlledNetwork.layers n /\
  ControlledNetwork.ctr_precision n2 = ControlledNetwork.ctr_precision n /\
  ControlledNetwork.controller_rate n2 = ControlledNetwork.controller_rate n.
Proof.
  unfold ControlledNetwork.evolve_controller.
  destruct (broadcast2 _ _ _); [|discriminate].
  destruct (iadd _ _); [|discriminate].
  intros H; injection H as <-. simpl. auto.
Qed.

Lemma loop_body_precision x ct n g o n2 g2 :
  loop_body x ct (n, g) = Some (o, (n2, g2)) ->
  ControlledNetwork.ctr_precision n2 = ControlledNetwork.ctr_precision n.
Proof.
  unfold loop_body; simpl.
  destruct (ControlledNetwork.forward _ _ _ _) as [[[o' n1] g1]|] eqn:F; [|discriminate].
  destruct (ControlledNetwork.evolve_controller _ _ _) as [n2'|] eqn:E; [|discriminate].
  intros H; injection H as <- <- <-.
  apply forward_net_frame in F as (_ & F & _).
  apply evolve_controller_frame in E as (_ & E & _). congruence.
Qed.

Lemma within_precision_ext a b o t :
  ControlledNetwork.ctr_precision a = ControlledNetwork.ctr_precision b ->
  ControlledNetwork.within_precision a o t = ControlledNetwork.within_precision b o t.
Proof. intros H; unfold ControlledNetwork.within_precision; now rewrite H. Qed.

Lemma stops_at_end_ext (p q : tensor1 -> option bool) os :
  (forall o, p o = q o) -> stops_at_end p os -> stops_at_end q os.
Proof.
  intros E. induction os as [|o os IH]; [auto|].
  destruct os as [|o' os].
  - simpl. now rewrite E.
  - intros [H1 H2]. split; [now rewrite <- E | now apply IH].
Qed.

Lemma stops_at_end_cons p o os :
  p o = Some false -> stops_at_end p os -> stops_at_end p (o :: os).
Proof. intros H S. destruct os; [contradiction | split; assumption]. Qed.

Lemma passes_length k x ct s os s' :
  passes k x ct s = Some (os, s') -> length os = k.
Proof.
  revert s os s'; induction k as [|k IH]; simpl; intros s os s'.
  - intros H; injection H as <- <-; reflexivity.
  - destruct (loop_body x ct s) as [[o s1]|]; [|discriminate].
    destruct (passes k x ct s1) as [[os1 s2]|] eqn:P; [|discriminate].
    intros H; injection H as <- <-. simpl. f_equal. eapply IH; eauto.
Qed.

(** One turn of the loop, in terms of [loop_body]. *)
Lemma evolve_loop_step fuel x t ct n g k first :
  ControlledNetwork.evolve_loop (S fuel) x t ct n g k first =
  match loop_body x ct (n, g) with
  | None => Raised
  | Some (o, (n2, g1)) =>
      let first' := if (S k =? 1)%nat then Some o else first in
      match ControlledNetwork.within_precision n2 o t with
      | None => Raised
      | Some true =>
          match first' with
          | Some f => Returned (f, S k, n2, g1)
          | None => Raised
          end
      | Some false => ControlledNetwork.evolve_loop fuel x t ct n2 g1 (S k) first'
      end
  end.
Proof.
  unfold loop_body. simpl.
  destruct (ControlledNetwork.forward _ _ _ _) as [[[o n1] g1]|]; [|reflexivity].
  destruct (ControlledNetwork.evolve_controller _ _ _) as [n2|]; reflexivity.
Qed.

(** A run that returns made [j] passes, the test failed after each of the
    first [j - 1] and held after the last; the first output returned is the
    one recorded when [n_iter] became 1. *)
Lemma evolve_loop_returned fuel x t ct :
  forall n g k first f m n' g',
  ControlledNetwork.evolve_loop fuel x t ct n g k first = Returned (f, m, n', g') ->
  exists j os,
    m = (k + j)%nat /\ (1 <= j <= fuel)%nat /\
    passes j x ct (n, g) = Some (os, (n', g')) /\
    stops_at_end (fun o => ControlledNetwork.within_precision n o t) os /\
    (k = O -> hd_error os = Some f) /\ (k <> O -> first = Some f).
Proof.
  induction fuel as [|fuel IH]; intros n g k first f m n' g'; [discriminate|].
  rewrite evolve_loop_step.
  destruct (loop_body x ct (n, g)) as [[o [n2 g1]]|] eqn:B; [|discriminate].
  pose proof (loop_body_precision _ _ _ _ _ _ _ B) as P.
  cbv zeta.
  destruct (ControlledNetwork.within_precision n2 o t) as [[|]|] eqn:W; [| |discriminate].
  - destruct (if (S k =? 1)%nat then Some o else first) as [f0|] eqn:F; [|discriminate].
    intros H; injection H as <- <- <- <-.
    exists 1%nat, [o]. simpl. rewrite B.
    repeat split; try lia.
    + rewrite <- (within_precision_ext n2 n o t P). exact W.
    + intros ->. simpl in F. congruence.
    + intros K. destruct k; [contradiction|]. simpl in F. exact F.
  - intros H. apply IH in H as (j & os & -> & Hj & Hp & Hs & _ & Hf).
    specialize (Hf (Nat.neq_succ_0 k)).
    exists (S j), (o :: os). simpl. rewrite B, Hp.
    repeat split; try lia.
    + apply (stops_at_end_cons (fun o' => ControlledNetwork.within_precision n o' t));
        [rewrite <- (within_precision_ext n2 n o t P); exact W|].
      apply (stops_at_end_ext (fun o' => ControlledNetwork.within_precision n2 o' t));
        [|exact Hs].
      intros o'. exact (within_precision_ext n2 n o' t P).
    + intros ->. simpl in Hf. exact Hf.
    + intros K. destruct k; [contradiction|]. simpl in Hf. exact Hf.
Qed.

(** Conversely, when the test first holds after [j] passes, any fuel of at
    least [j] makes the run return there. *)
Lemma evolve_loop_returns j x t ct :
  forall fuel n g k first os n' g' f,
  (j <= fuel)%nat ->
  passes j x ct (n, g) = Some (os, (n', g')) ->
  stops_at_end (fun o => ControlledNetwork.within_precision n o t) os ->
  (k = O -> hd_error os = Some f) -> (k <> O -> first = Some f) ->
  ControlledNetwork.evolve_loop fuel x t ct n g k first = Returned (f, (k + j)%nat, n', g').
Proof.
  induction j as [|j IH]; intros fuel n g k first os n' g' f Hfuel Hp Hs H0 H1.
  - simpl in Hp. inversion Hp; subst. contradiction.
  - destruct fuel as [|fuel]; [lia|]. rewrite evolve_loop_step.
    simpl in Hp.
    destruct (loop_body x ct (n, g)) as [[o [n2 g1]]|] eqn:B; [|discriminate].
    pose proof (loop_body_precision _ _ _ _ _ _ _ B) as P.
    destruct (passes j x ct (n2, g1)) as [[os1 s2]|] eqn:Pj; [|discriminate].
    injection Hp as <- ->. cbv zeta.
    rewrite (within_precision_ext n2 n o t P).
    assert (F : (if (S k =? 1)%nat then Some o else first) = Some f).
    { destruct k; simpl; [apply H0; reflexivity | apply H1; discriminate]. }
    destruct os1 as [|o1 os1].
    + simpl in Hs. rewrite Hs, F.
      apply passes_length in Pj as L. simpl in L. subst j.
      simpl in Pj. inversion Pj; subst. now rewrite Nat.add_1_r.
    + destruct Hs as [Hs1 Hs2]. rewrite Hs1.
      rewrite (IH fuel n2 g1 (S k) _ (o1 :: os1) n' g' f); try assumption; try lia.
      * now rewrite Nat.add_succ_r.
      * apply (stops_at_end_ext (fun o' => ControlledNetwork.within_precision n o' t));
          [|exact Hs2].
        intros o'. symmetry. exact (within_precision_ext n2 n o' t P).
      * intros _. exact F.
Qed.

Lemma passes_first k x ct s os s' f :
  passes k x ct s = Some (os, s') -> hd_error os = Some f ->
  exists n1 g1,
    ControlledNetwork.forward (fst s) x (ControlledNetwork.c (fst s)) (snd s)
    = Some (f, n1, g1).
Proof.
  destruct k as [|k]; simpl.
  - intros H; injection H as <- _. discriminate.
  - unfold loop_body.
    destruct (ControlledNetwork.forward _ _ _ _) as [[[o n1] g1]|]; [|discriminate].
    destruct (ControlledNetwork.evolve_controller _ _ _) as [n2|]; [|discriminate].
    destruct (passes k x ct _) as [[os1 s2]|]; [|discriminate].
    intros H; injection H as <- _. simpl. intros H; injection H as <-.
    now exists n1, g1.
Qed.

(** C3. When [evolve_to_convergence] returns [(first_output, n_iter)], the
    first component is the output of the first network step taken after the
    reset, however many passes followed, and the second is the number of
    passes through the loop body: [n_iter] passes lead from the reset state to
    the final state, the stopping test failing after each but the last. *)
Theorem evolve_first_output_and_count fuel net x t ct g first k net' g' :
  ControlledNetwork.evolve_to_convergence fuel net x t ct g = Returned (first, k, net', g') ->
  let net0 := ControlledNetwork.reset net in
  (exists n1 g1,
     ControlledNetwork.forward net0 x (ControlledNetwork.c net0) g = Some (first, n1, g1)) /\
  (1 <= k <= fuel)%nat /\
  exists os,
    passes k x ct (net0, g) = Some (os, (net', g')) /\
    length os = k /\
    hd_error os = Some first /\
    stops_at_end (fun o => ControlledNetwork.within_precision net0 o t) os.
Proof.
  intros H. cbv zeta. unfold ControlledNetwork.evolve_to_convergence in H.
  apply evolve_loop_returned in H as (j & os & -> & Hj & Hp & Hs & Hf & _).
  specialize (Hf eq_refl). simpl.
  split; [exact (passes_first _ _ _ _ _ _ _ Hp Hf)|].
  split; [exact Hj|].
  exists os. repeat split; try assumption.
  eapply passes_length; eauto.
Qed.

(** ** Shapes: calls on a well-formed network do not raise *)

Lemma sigmoid_unit x : 0 < sigmoid x < 1.
Proof.
  unfold sigmoid. pose proof (exp_pos (- x)) as E.
  assert (P : 0 < 1 + exp (- x)) by lra.
  split; [now apply Rinv_0_lt_compat|].
  rewrite <- Rinv_1. apply Rinv_lt_contravar; lra.
Qed.

Lemma matvec_length W x : length (matvec W x) = length W.
Proof. apply length_map. Qed.

Lemma integrate_length l a b :
  ControlledLayer.wf l -> length a = ControlledLayer.fan_out l ->
  length b = ControlledLayer.fan_out l ->
  length (ControlledLayer.integrate l a b) = ControlledLayer.fan_out l.
Proof.
  intros (_ & _ & Hv) Ha Hb. unfold ControlledLayer.integrate.
  rewrite !vadd_length, smul_length. lia.
Qed.

Lemma dynamics_lengths l :
  length (fst (ControlledLayer.dynamics l)) = length (ControlledLayer.v l) /\
  length (ControlledLayer.v (snd (ControlledLayer.dynamics l))) = length (ControlledLayer.v l).
Proof.
  unfold ControlledLayer.dynamics, ControlledLayer._spiking_dynamics,
    ControlledLayer._rate_dynamics.
  destruct (ControlledLayer.mode l); simpl.
  - rewrite map2_length, !length_map. lia.
  - rewrite length_map. auto.
Qed.

Lemma rate_output_unit l :
  ControlledLayer.mode l = rate -> unit_open (fst (ControlledLayer.dynamics l)).
Proof.
  intros Hm. unfold ControlledLayer.dynamics. rewrite Hm. simpl.
  unfold unit_open. induction (ControlledLayer.v l); simpl; constructor; auto.
  apply sigmoid_unit.
Qed.

(** A call whose input and controller have the widths of the projections
    returns. *)
Lemma forward_defined l inputs c g :
  length inputs = in_features (ControlledLayer.ff l) ->
  length c = in_features (ControlledLayer.fb l) ->
  plastic_ok l ->
  exists out l' g', ControlledLayer.forward l inputs c g = Some (out, l', g').
Proof.
  intros H1 H2 P. unfold ControlledLayer.forward, apply_linear.
  rewrite H1, H2, !Nat.eqb_refl.
  set (l1 := ControlledLayer.set_v l _).
  pose proof (dynamics_frame l1) as (_ & _ & _ & _ & _ & _ & Hd & Hpre & Hpost).
  destruct (ControlledLayer.dynamics l1) as [outputs l2]. simpl in *.
  rewrite Hd. destruct (truthy (ControlledLayer.stdp_decay l)) eqn:T.
  - destruct (ControlledLayer.spike_indicators l2 _ _ _) as [[pre post] g1].
    rewrite Hpre, Hpost. destruct (P T) as [A B].
    destruct (ControlledLayer.Apre l); [|contradiction].
    destruct (ControlledLayer.Apost l); [|contradiction].
    eauto.
  - eauto.
Qed.

(** A call keeps the class invariant and returns an output of width
    [fan_out]; in rate mode every entry lies strictly between 0 and 1. *)
Lemma forward_wf l inputs c g out l' g' :
  ControlledLayer.wf l ->
  ControlledLayer.forward l inputs c g = Some (out, l', g') ->
  ControlledLayer.wf l' /\ plastic_ok l' /\
  length out = ControlledLayer.fan_out l /\
  (ControlledLayer.mode l = rate -> unit_open out).
Proof.
  intros W H.
  pose proof (forward_frame _ _ _ _ _ _ _ H) as (_ & _ & F3 & _ & F5 & F6 & _ & F8).
  pose proof (forward_inv _ _ _ _ _ _ _ H) as (_ & _ & Hout & Hv). cbv zeta in *.
  set (l1 := ControlledLayer.set_v l _) in *.
  assert (L1 : length (ControlledLayer.v l1) = ControlledLayer.fan_out l).
  { subst l1. simpl. destruct W as (W1 & W2 & W3).
    apply integrate_length; [repeat split; assumption| |]; rewrite matvec_length; assumption. }
  destruct (dynamics_lengths l1) as [D1 D2].
  split; [|split; [|split]].
  - destruct W as (W1 & W2 & W3). unfold ControlledLayer.wf.
    rewrite F3, F5, F6, Hv, D2, L1. auto.
  - intros T. apply forward_cases in H. cbv zeta in H.
    destruct H as [(T' & _) | (_ & a & b & p & q & _ & _ & _ & ->)].
    + rewrite F8 in T. congruence.
    + simpl. split; discriminate.
  - now rewrite Hout, D1.
  - intros Hm. rewrite Hout. apply rate_output_unit. subst l1. exact Hm.
Qed.

(** A pass through a well-shaped stack returns, keeps the shapes, and its
    output has the width of the last layer. *)
Lemma forward_layers_ok ls :
  forall width cdim x c g,
  chain_ok ls width cdim -> length x = width -> length c = cdim ->
  exists out ls' g',
    ControlledNetwork.forward_layers ls x c g = Some (out, ls', g') /\
    chain_ok ls' width cdim /\
    out_width ls' width = out_width ls width /\
    length out = out_width ls width /\
    (ends_in_rate ls -> unit_open out /\ ends_in_rate ls').
Proof.
  induction ls as [|l ls IH]; intros width cdim x c g C Hx Hc; simpl.
  - exists x, [], g. repeat split; auto. contradiction.
  - destruct C as (W & I1 & I2 & P & C).
    destruct (forward_defined l x c g) as (y & l' & g1 & E);
      [congruence | congruence | exact P |].
    rewrite E.
    pose proof (forward_wf _ _ _ _ _ _ _ W E) as (W' & P' & Ly & U).
    pose proof (forward_frame _ _ _ _ _ _ _ E) as (_ & _ & F3 & F4 & _ & F6 & F7 & _).
    destruct (IH (ControlledLayer.fan_out l) cdim y c g1 C Ly Hc)
      as (out & ls' & g2 & E2 & C2 & O2 & L2 & R2).
    rewrite E2. exists out, (l' :: ls'), g2.
    split; [reflexivity|]. split; [|split; [|split]].
    + simpl. rewrite F3, F4, F6.
      split; [exact W'|]. split; [exact I1|]. split; [exact I2|].
      split; [exact P' | exact C2].
    + simpl. now rewrite F3.
    + exact L2.
    + destruct ls as [|l2 ls].
      * simpl in E2. injection E2 as <- <- <-. simpl. intros Hm. split.
        -- apply U. exact Hm.
        -- congruence.
      * intros R. change (ends_in_rate (l2 :: ls)) in R.
        destruct (R2 R) as [U2 R3]. split; [exact U2|].
        destruct ls' as [|l3 ls']; [contradiction|]. exact R3.
Qed.

Lemma reset_wf_net n width :
  wf_net n width -> wf_net (ControlledNetwork.reset n) width.
Proof.
  unfold wf_net, ControlledNetwork.reset. simpl. rewrite length_map.
  generalize (length (ControlledNetwork.c n)) as cdim.
  generalize width.
  induction (ControlledNetwork.layers n) as [|l ls IH]; intros w cdim [C O]; simpl.
  - auto.
  - destruct C as ((W1 & W2 & W3) & I1 & I2 & P & C).
    destruct (IH _ _ (conj C O)) as [C' O'].
    split; [|exact O'].
    split; [|split; [exact I1|split; [exact I2|split; [exact P|exact C']]]].
    unfold ControlledLayer.wf, ControlledLayer.reset. simpl.
    unfold zeros. rewrite repeat_length. auto.
Qed.

Lemma reset_ends_in_rate n :
  ends_in_rate (ControlledNetwork.layers n) ->
  ends_in_rate (ControlledNetwork.layers (ControlledNetwork.reset n)).
Proof.
  unfold ControlledNetwork.reset. simpl.
  induction (ControlledNetwork.layers n) as [|l ls IH]; [auto|].
  destruct ls as [|l2 ls]; [auto|]. exact IH.
Qed.

(** One pass of the loop body on a well-shaped rate network: it returns,
    keeps the shapes, and its output lies strictly between 0 and 1. *)
Lemma loop_body_ok n width x ct g :
  wf_net n width -> ends_in_rate (ControlledNetwork.layers n) ->
  length x = width -> length ct = length (ControlledNetwork.c n) ->
  exists o n2 g2,
    loop_body x ct (n, g) = Some (o, (n2, g2)) /\
    wf_net n2 width /\ ends_in_rate (ControlledNetwork.layers n2) /\
    length (ControlledNetwork.c n2) = length (ControlledNetwork.c n) /\
    length o = length (ControlledNetwork.c n) /\ unit_open o.
Proof.
  intros [C O] R Hx Hct. unfold loop_body, ControlledNetwork.forward. simpl.
  destruct (forward_layers_ok _ _ _ x (ControlledNetwork.c n) g C Hx eq_refl)
    as (o & ls' & g2 & E & C2 & O2 & L2 & R2).
  rewrite E. destruct (R2 R) as [U R'].
  assert (Lo : length o = length (ControlledNetwork.c n)) by congruence.
  rewrite evolve_controller_same_shape by (simpl; congruence).
  eexists _, _, _. split; [reflexivity|].
  assert (Lc : length (vadd (ControlledNetwork.c n)
                         (smul (ControlledNetwork.controller_rate n) (vsub ct o)))
               = length (ControlledNetwork.c n)).
  { rewrite vadd_length, smul_length, vsub_length. lia. }
  unfold wf_net. simpl. rewrite Lc.
  repeat split; try assumption. congruence.
Qed.

Lemma rsum_above p a :
  a <> [] -> Forall (fun y => p < y) a -> p * INR (length a) < rsum a.
Proof.
  induction a as [|y a IH]; [contradiction|]. intros _ F.
  inversion F as [|? ? Hy Fa]; subst.
  change (length (y :: a)) with (S (length a)). rewrite S_INR. simpl.
  destruct a as [|z a].
  - simpl. lra.
  - assert (p * INR (length (z :: a)) < rsum (z :: a)) by (apply IH; [discriminate | exact Fa]).
    lra.
Qed.

Lemma unit_open_closed o : unit_open o -> unit_closed o.
Proof.
  unfold unit_open, unit_closed. intros H. eapply Forall_impl; [|exact H].
  intros y Hy. simpl in Hy. lra.
Qed.

(** The stopping test fails on any output between 0 and 1 when the target is
    out of reach. *)
Lemma out_of_reach_fails n o t :
  length t = length o -> o <> [] -> unit_closed o ->
  out_of_reach (ControlledNetwork.ctr_precision n) t ->
  ControlledNetwork.within_precision n o t = Some false.
Proof.
  intros L Ne U T. unfold ControlledNetwork.within_precision.
  rewrite broadcast2_same by congruence.
  set (p := ControlledNetwork.ctr_precision n) in *.
  assert (F : Forall (fun y => p < y) (map Rabs (map2 Rminus o t))).
  { clear Ne. revert t L T. induction U as [|y o Hy U IH]; intros [|z t] L T;
      simpl in *; try discriminate; constructor.
    - inversion T as [|? ? Hz _]; subst. unfold Rabs.
      destruct (Rcase_abs (y - z)); lra.
    - inversion T; subst. apply IH; [congruence | assumption]. }
  assert (Ne' : map Rabs (map2 Rminus o t) <> []).
  { destruct o, t; simpl in *; try discriminate; congruence. }
  pose proof (rsum_above p _ Ne' F) as S. rewrite length_map in S.
  unfold abs_mean. destruct (map2 Rminus o t) as [|d ds] eqn:D; [contradiction|].
  f_equal. apply Rleb_false.
  assert (Lpos : 0 < INR (length (d :: ds))) by (apply lt_0_INR; simpl; lia).
  apply Rmult_lt_reg_r with (INR (length (d :: ds))); [exact Lpos|].
  unfold Rdiv. rewrite Rmult_assoc, Rinv_l by lra. lra.
Qed.

(** With a target out of reach the loop of a rate network is still running
    after any number of passes. *)
Lemma evolve_loop_diverges width x t ct :
  forall fuel n g k first,
  wf_net n width -> ends_in_rate (ControlledNetwork.layers n) ->
  length x = width -> length ct = length (ControlledNetwork.c n) ->
  length t = length (ControlledNetwork.c n) ->
  (1 <= length (ControlledNetwork.c n))%nat ->
  out_of_reach (ControlledNetwork.ctr_precision n) t ->
  ControlledNetwork.evolve_loop fuel x t ct n g k first = OutOfFuel.
Proof.
  induction fuel as [|fuel IH]; intros n g k first W R Hx Hct Ht Hc T; [reflexivity|].
  rewrite evolve_loop_step.
  destruct (loop_body_ok n width x ct g W R Hx Hct)
    as (o & n2 & g2 & B & W2 & R2 & Lc & Lo & U).
  rewrite B. cbv zeta.
  pose proof (loop_body_precision _ _ _ _ _ _ _ B) as P.
  rewrite out_of_reach_fails;
    [| congruence | | apply unit_open_closed; exact U | now rewrite P].
  - apply IH; try assumption; congruence.
  - destruct o; [simpl in Lo; lia | discriminate].
Qed.

(** The loop is left by [return] after [k] passes exactly when the stopping
    test, made after the controller update of each pass, holds after pass [k]
    for the first time (and the fuel covers [k] passes); what is returned is
    the output of the first pass and the state the [k]-th update leaves. *)
Lemma evolve_returns_iff fuel net x t ct g f k n' g' :
  ControlledNetwork.evolve_to_convergence fuel net x t ct g = Returned (f, k, n', g') <->
  ((1 <= k <= fuel)%nat /\
   exists os,
     passes k x ct (ControlledNetwork.reset net, g) = Some (os, (n', g')) /\
     hd_error os = Some f /\
     stops_at_end
       (fun o => ControlledNetwork.within_precision (ControlledNetwork.reset net) o t) os).
Proof.
  unfold ControlledNetwork.evolve_to_convergence. split.
  - intros H.
    apply evolve_loop_returned in H as (j & os & -> & Hj & Hp & Hs & Hf & _).
    split; [exact Hj|]. exists os. auto.
  - intros (Hk & os & Hp & Hf & Hs).
    apply (evolve_loop_returns k x t ct fuel _ g 0%nat None os n' g' f);
      try assumption; try lia; auto.
Qed.

Lemma Rleb_iff x y : Rleb x y = true <-> x <= y.
Proof.
  unfold Rleb. destruct (Rle_dec x y); split; auto; discriminate.
Qed.

(** The stopping test, written out for an output and a target of the same
    length: it holds exactly when the output is not empty and the mean of the
    absolute differences is at most the precision. *)
Lemma within_precision_spec n o t :
  length t = length o ->
  exists b,
    ControlledNetwork.within_precision n o t = Some b /\
    (b = true <->
     o <> [] /\ mean_abs_diff o t <= ControlledNetwork.ctr_precision n).
Proof.
  intros L. unfold ControlledNetwork.within_precision, mean_abs_diff.
  rewrite broadcast2_same by congruence.
  assert (Ld : length (map2 Rminus o t) = length o) by (rewrite map2_length; lia).
  unfold abs_mean. destruct (map2 Rminus o t) as [|d ds] eqn:D.
  - exists false. split; [reflexivity|].
    assert (o = []) by (destruct o; [reflexivity | discriminate]).
    split; [discriminate | intros [Ne _]; contradiction].
  - rewrite Ld. eexists. split; [reflexivity|]. rewrite Rleb_iff.
    split; [intros H; split; [|exact H] | intros [_ H]; exact H].
    intros ->. discriminate.
Qed.

(** As long as the test fails the loop goes on: after any number of passes
    that all fail the test the run is still in the loop. *)
Lemma evolve_loop_still_running x t ct :
  forall fuel n g k first os s',
  passes fuel x ct (n, g) = Some (os, s') ->
  Forall (fun o => ControlledNetwork.within_precision n o t = Some false) os ->
  ControlledNetwork.evolve_loop fuel x t ct n g k first = OutOfFuel.
Proof.
  induction fuel as [|fuel IH]; intros n g k first os s' Hp F; [reflexivity|].
  rewrite evolve_loop_step. simpl in Hp.
  destruct (loop_body x ct (n, g)) as [[o [n2 g1]]|] eqn:B; [|discriminate].
  pose proof (loop_body_precision _ _ _ _ _ _ _ B) as P.
  destruct (passes fuel x ct (n2, g1)) as [[os1 s2]|] eqn:Pj; [|discriminate].
  injection Hp as <- <-. inversion F as [|? ? Fo Fos]; subst. cbv zeta.
  rewrite (within_precision_ext n2 n o t P), Fo.
  apply (IH n2 g1 _ _ os1 s2 Pj).
  eapply Forall_impl; [|exact Fos]. intros o' H.
  now rewrite (within_precision_ext n2 n o' t P).
Qed.

(** On a well-shaped rate network with a target out of reach every pass goes
    through and the test fails after each. *)
Lemma passes_never_stop width x t ct k :
  forall n g,
  wf_net n width -> ends_in_rate (ControlledNetwork.layers n) ->
  length x = width -> length ct = length (ControlledNetwork.c n) ->
  length t = length (ControlledNetwork.c n) ->
  (1 <= length (ControlledNetwork.c n))%nat ->
  out_of_reach (ControlledNetwork.ctr_precision n) t ->
  exists os s',
    passes k x ct (n, g) = Some (os, s') /\
    Forall (fun o => ControlledNetwork.within_precision n o t = Some false) os.
Proof.
  induction k as [|k IH]; intros n g W R Hx Hct Ht Hc T; simpl.
  - exists [], (n, g). auto.
  - destruct (loop_body_ok n width x ct g W R Hx Hct)
      as (o & n2 & g2 & B & W2 & R2 & Lc & Lo & U).
    rewrite B.
    pose proof (loop_body_precision _ _ _ _ _ _ _ B) as P.
    destruct (IH n2 g2) as (os & s' & E & F); try assumption; try congruence.
    rewrite E. exists (o :: os), s'. split; [reflexivity|]. constructor.
    + apply out_of_reach_fails;
        [congruence | | apply unit_open_closed; exact U | exact T].
      destruct o; [simpl in Lo; lia | discriminate].
    + eapply Forall_impl; [|exact F]. intros o' H.
      now rewrite <- (within_precision_ext n2 n o' t P).
Qed.

(** C4. The loop of [evolve_to_convergence] is left exactly when the mean
    absolute difference between the current output and [target_rate] is at
    most the precision, tested after the controller update of each pass, and
    nothing else bounds it.  In four parts, for every network, input and
    target: the test is that comparison; the run returns after [k] passes if
    and only if the test holds after pass [k] and failed after every earlier
    one; a run whose passes all fail the test is still in the loop after any
    number of them; and such runs exist: on a network whose last layer is in
    rate mode, with a target every entry of which is farther than the
    precision from the interval from 0 to 1, every pass goes through, the
    test fails after each, and the run never returns. *)
Theorem convergence_loop_has_no_cap :
  (forall n o t,
     length t = length o ->
     exists b,
       ControlledNetwork.within_precision n o t = Some b /\
       (b = true <->
        o <> [] /\ mean_abs_diff o t <= ControlledNetwork.ctr_precision n)) /\
  (forall fuel net x t ct g f k n' g',
     ControlledNetwork.evolve_to_convergence fuel net x t ct g = Returned (f, k, n', g') <->
     ((1 <= k <= fuel)%nat /\
      exists os,
        passes k x ct (ControlledNetwork.reset net, g) = Some (os, (n', g')) /\
        hd_error os = Some f /\
        stops_at_end
          (fun o => ControlledNetwork.within_precision (ControlledNetwork.reset net) o t)
          os)) /\
  (forall fuel net x t ct g os s',
     passes fuel x ct (ControlledNetwork.reset net, g) = Some (os, s') ->
     Forall (fun o => ControlledNetwork.within_precision (ControlledNetwork.reset net) o t
                      = Some false) os ->
     ControlledNetwork.evolve_to_convergence fuel net x t ct g = OutOfFuel) /\
  (forall net width x t ct g,
     wf_net net width -> ends_in_rate (ControlledNetwork.layers net) ->
     length x = width -> length ct = length (ControlledNetwork.c net) ->
     length t = length (ControlledNetwork.c net) ->
     (1 <= length (ControlledNetwork.c net))%nat ->
     out_of_reach (ControlledNetwork.ctr_precision net) t ->
     (forall k, exists os s',
        passes k x ct (ControlledNetwork.reset net, g) = Some (os, s') /\
        Forall (fun o => ControlledNetwork.within_precision (ControlledNetwork.reset net) o t
                         = Some false) os) /\
     (forall fuel,
        ControlledNetwork.evolve_to_convergence fuel net x t ct g = OutOfFuel)).
Proof.
  split; [|split; [|split]].
  - intros n o t L. now apply within_precision_spec.
  - intros fuel net x t ct g f k n' g'. apply evolve_returns_iff.
  - intros fuel net x t ct g os s' Hp F.
    unfold ControlledNetwork.evolve_to_convergence.
    exact (evolve_loop_still_running x t ct fuel _ g 0%nat None os s' Hp F).
  - intros net width x t ct g W R Hx Hct Ht Hc T.
    set (net0 := ControlledNetwork.reset net).
    assert (W0 : wf_net net0 width) by now apply reset_wf_net.
    assert (R0 : ends_in_rate (ControlledNetwork.layers net0))
      by now apply reset_ends_in_rate.
    assert (L0 : length (ControlledNetwork.c net0) = length (ControlledNetwork.c net))
      by (subst net0; simpl; apply length_map).
    split.
    + intros k. apply (passes_never_stop width). all: rewrite ?L0; assumption.
    + intros fuel. unfold ControlledNetwork.evolve_to_convergence. fold net0.
      apply (evolve_loop_diverges width); rewrite ?L0; assumption.
Qed.

(** ** The constructors establish the shapes *)

Lemma init_weight_length rows cols w : length (init_weight rows cols w) = rows.
Proof. unfold init_weight. now rewrite length_map, length_seq. Qed.

Lemma zeros_length n : length (zeros n) = n.
Proof. apply repeat_length. Qed.

Lemma layer_init_shapes fan_in fan_out cdim m lk tau w l :
  ControlledLayer.init fan_in fan_out cdim m lk tau w = Some l ->
  ControlledLayer.wf l /\ plastic_ok l /\
  in_features (ControlledLayer.ff l) = fan_in /\
  in_features (ControlledLayer.fb l) = cdim /\
  ControlledLayer.fan_out l = fan_out /\
  ControlledLayer.parse_mode m = Some (ControlledLayer.mode l).
Proof.
  unfold ControlledLayer.init.
  destruct (ControlledLayer.parse_mode m) as [md|]; [|discriminate].
  intros H; injection H as <-. unfold ControlledLayer.wf, plastic_ok, eye. simpl.
  rewrite !init_weight_length, zeros_length.
  split; [repeat split|]. split; [|repeat split].
  intros T. rewrite T. split; discriminate.
Qed.

Lemma init_layers_cons fan_in fan_out rest cdim m lk tau w k :
  ControlledNetwork.init_layers (fan_in :: fan_out :: rest) cdim m lk tau w k =
  match ControlledLayer.init fan_in fan_out cdim m lk tau (w k) with
  | None => None
  | Some l =>
      match ControlledNetwork.init_layers (fan_out :: rest) cdim m lk tau w (S k) with
      | None => None
      | Some ls => Some (l :: ls)
      end
  end.
Proof. reflexivity. Qed.

Lemma init_layers_shapes widths :
  forall cdim m lk tau w k ls,
  ControlledNetwork.init_layers widths cdim m lk tau w k = Some ls ->
  chain_ok ls (hd O widths) cdim /\
  out_width ls (hd O widths) = last widths O /\
  (ControlledLayer.parse_mode m = Some rate -> ls <> [] -> ends_in_rate ls).
Proof.
  induction widths as [|fan_in rest IH]; intros cdim m lk tau w k ls.
  - simpl. intros H; injection H as <-. simpl.
    repeat split; auto; try (intros _ N; congruence).
  - destruct rest as [|fan_out rest'].
    + simpl. intros H; injection H as <-. simpl.
      repeat split; auto; try (intros _ N; congruence).
    + rewrite init_layers_cons.
      destruct (ControlledLayer.init fan_in fan_out cdim m lk tau (w k)) as [l|] eqn:E;
        [|discriminate].
      destruct (ControlledNetwork.init_layers (fan_out :: rest') cdim m lk tau w (S k))
        as [ls'|] eqn:E'; [|discriminate].
      intros H; injection H as <-.
      apply layer_init_shapes in E as (W & P & I1 & I2 & F & M).
      apply IH in E' as (C & O & R). cbn [hd] in *.
      split; [|split].
      * simpl. rewrite F.
        split; [exact W|]. split; [exact I1|]. split; [exact I2|].
        split; [exact P | exact C].
      * cbn [out_width]. rewrite F, O. reflexivity.
      * intros Hm _. destruct ls' as [|l2 ls'].
        -- simpl. congruence.
        -- change (ends_in_rate (l2 :: ls')). apply R; [exact Hm | discriminate].
Qed.

(** Every network the constructor builds is well shaped for inputs of the
    first width, and in rate mode with at least one layer it ends in a rate
    layer. *)
Lemma init_wf_net widths m lk cr tau prec tr w n :
  ControlledNetwork.init widths m lk cr tau prec tr w = Some n ->
  wf_net n (hd O widths) /\
  length (ControlledNetwork.c n) = last widths O /\
  (ControlledLayer.parse_mode m = Some rate -> ControlledNetwork.layers n <> [] ->
   ends_in_rate (ControlledNetwork.layers n)).
Proof.
  unfold ControlledNetwork.init. destruct widths as [|w0 ws]; [discriminate|].
  destruct (ControlledNetwork.init_layers _ _ _ _ _ _ _) as [ls|] eqn:E; [|discriminate].
  intros H; injection H as <-. unfold wf_net. simpl ControlledNetwork.layers.
  simpl ControlledNetwork.c. rewrite zeros_length.
  apply init_layers_shapes in E as (C & O & R). auto.
Qed.

Lemma map_nth_seq (b : tensor1) : map (fun j => nth j b 0) (seq 0 (length b)) = b.
Proof.
  induction b as [|y b IH]; [reflexivity|].
  simpl. f_equal. rewrite <- seq_shift, map_map. exact IH.
Qed.

(** The transposed outer product, entry by entry: row [j] holds
    [a_i * b_j]. *)
Lemma transpose_outer a b :
  transpose (length b) (outer a b) = map (fun y => map (fun x => x * y) a) b.
Proof.
  unfold transpose, outer.
  transitivity (map (fun y => map (fun x => x * y) a)
                    (map (fun j => nth j b 0) (seq 0 (length b))));
    [|now rewrite map_nth_seq].
  rewrite map_map. apply map_ext_in. intros j Hj. apply in_seq in Hj.
  rewrite map_map. apply map_ext. intros x.
  exact (nth_map_lt (Rmult x) b j 0 0 (proj2 Hj)).
Qed.

(** The state of [ex_noleak] is reached from the constructor by one call. *)
Lemma ex_noleak_reached :
  exists l0 out l' g',
    ControlledLayer.init 1 1 1 "rate" 0 (PyBool false) (fun _ _ => 2) = Some l0 /\
    ControlledLayer.forward l0 [1 / 4] [0] g_half = Some (out, l', g') /\
    ControlledLayer.v l' = ControlledLayer.v ex_noleak.
Proof.
  eexists _, _, _, _. split; [reflexivity|]. split; [reflexivity|].
  cbn. f_equal. lra.
Qed.

(** ** Instances on the example objects *)

Lemma plastic_ok_off l : truthy (ControlledLayer.stdp_decay l) = false -> plastic_ok l.
Proof. intros F T. congruence. Qed.

Lemma forward_potential_update_witness :
  exists out l' g',
    ControlledLayer.forward ex_spiking [1] [0] g_half = Some (out, l', g') /\
    out = [1] /\ ControlledLayer.v l' = [0].
Proof.
  destruct (forward_defined ex_spiking [1] [0] g_half) as (out & l' & g' & E);
    [reflexivity | reflexivity | apply plastic_ok_off; reflexivity |].
  exists out, l', g'. split; [exact E|].
  pose proof (forward_potential_update _ _ _ _ _ _ _ E) as H.
  cbn in H. rewrite Rgtb_true in H by lra. cbn in H.
  injection H as -> ->. split; reflexivity.
Defined.

Lemma spiking_dynamics_threshold_reset_witness :
  let out := fst (ControlledLayer.dynamics ex_pair) in
  let v' := ControlledLayer.v (snd (ControlledLayer.dynamics ex_pair)) in
  (nth 0 out 0 = 1 /\ nth 0 v' 0 = 0) /\ (nth 1 out 0 = 0 /\ nth 1 v' 0 = 1).
Proof.
  cbv zeta. split.
  - destruct (spiking_dynamics_threshold_reset ex_pair 0 eq_refl eq_refl)
      as (_ & _ & H & _); [simpl; lia|].
    apply H. simpl. lra.
  - destruct (spiking_dynamics_threshold_reset ex_pair 1 eq_refl eq_refl)
      as (_ & _ & _ & H & _); [simpl; lia|].
    apply H. simpl. lra.
Defined.

(** The spiking example network driven below threshold: the first pass gives
    no spike, the controller pushes the potential over the threshold, the
    second pass spikes and meets the target. *)
Lemma ex_net_run :
  exists net',
    ControlledNetwork.evolve_to_convergence 2 ex_net [9 / 20] [1] [1] g_half
    = Returned ([0], 2%nat, net', g_half).
Proof.
  unfold ControlledNetwork.evolve_to_convergence. cbn.
  rewrite Rgtb_false by lra. cbn.
  rewrite Rleb_false by r_case. cbn.
  rewrite Rgtb_true by lra. cbn.
  rewrite Rleb_true by r_case.
  eexists. reflexivity.
Qed.

Lemma evolve_first_output_and_count_witness :
  exists net',
    ControlledNetwork.evolve_to_convergence 2 ex_net [9 / 20] [1] [1] g_half
    = Returned ([0], 2%nat, net', g_half) /\
    (exists n1 g1,
       ControlledNetwork.forward (ControlledNetwork.reset ex_net) [9 / 20]
         (ControlledNetwork.c (ControlledNetwork.reset ex_net)) g_half
       = Some ([0], n1, g1)) /\
    exists os,
      passes 2 [9 / 20] [1] (ControlledNetwork.reset ex_net, g_half)
      = Some (os, (net', g_half)) /\
      length os = 2%nat /\ hd_error os = Some [0].
Proof.
  destruct ex_net_run as [net' H]. exists net'. split; [exact H|].
  destruct (evolve_first_output_and_count _ _ _ _ _ _ _ _ _ _ H)
    as (F & _ & os & P & L & Hd & _).
  split; [exact F|]. exists os. auto.
Defined.

Lemma wf_net_ex_net_rate : wf_net ex_net_rate 1.
Proof.
  split; [|reflexivity]. simpl.
  split; [repeat split|]. split; [reflexivity|]. split; [reflexivity|].
  split; [apply plastic_ok_off; reflexivity | exact I].
Qed.

Lemma out_of_reach_ex : out_of_reach (ControlledNetwork.ctr_precision ex_net_rate) [2].
Proof. constructor; [|constructor]. left. simpl. lra. Qed.

(** Both sides on the example networks: the rate network asked for the rate 2
    is still in the loop after 1000 passes, and the spiking network that
    returns after two passes failed the test after the first and met it after
    the second. *)
Lemma convergence_loop_has_no_cap_witness :
  ControlledNetwork.evolve_to_convergence 1000 ex_net_rate [1] [2] [1] g_half = OutOfFuel /\
  exists net' os,
    passes 2 [9 / 20] [1] (ControlledNetwork.reset ex_net, g_half)
    = Some (os, (net', g_half)) /\
    stops_at_end
      (fun o => ControlledNetwork.within_precision (ControlledNetwork.reset ex_net) o [1]) os.
Proof.
  destruct convergence_loop_has_no_cap as (_ & Hiff & _ & Hrate). split.
  - exact (proj2 (Hrate ex_net_rate 1%nat [1] [2] [1] g_half
                    wf_net_ex_net_rate eq_refl eq_refl eq_refl eq_refl
                    (le_n 1) out_of_reach_ex) 1000%nat).
  - destruct ex_net_run as [net' H].
    destruct (proj1 (Hiff _ _ _ _ _ _ _ _ _ _) H) as (_ & os & Hp & _ & Hs).
    exists net', os. split; [exact Hp | exact Hs].
Defined.

Lemma ex_plastic_calls :
  exists o1 l1 o2 l2,
    ControlledLayer.forward ex_plastic [1] [0] g_half = Some (o1, l1, g_half) /\
    ControlledLayer.forward l1 [1] [0] g_half = Some (o2, l2, g_half).
Proof.
  assert (T : truthy (PyNum (1 - 1 / 2)) = true) by (apply truthy_nonzero; lra).
  eexists _, _, _, _. split.
  - unfold ControlledLayer.forward. cbn -[truthy]. rewrite T. reflexivity.
  - unfold ControlledLayer.forward. cbn -[truthy]. rewrite T. reflexivity.
Qed.

Lemma plasticity_accumulates_witness :
  exists o1 l1 o2 l2,
    ControlledLayer.forward ex_plastic [1] [0] g_half = Some (o1, l1, g_half) /\
    ControlledLayer.forward l1 [1] [0] g_half = Some (o2, l2, g_half) /\
    exists apre1 apost1 apre2 apost2,
      ControlledLayer.Apre l2 = Some apre2 /\ ControlledLayer.Apost l2 = Some apost2 /\
      weight_grad (ControlledLayer.ff l2) =
        Some (madd (madd [[0]] (stdp_contribution [1] o1 apre1 apost1))
                   (stdp_contribution [1] o2 apre2 apost2)).
Proof.
  destruct ex_plastic_calls as (o1 & l1 & o2 & l2 & E1 & E2).
  exists o1, l1, o2, l2. split; [exact E1|]. split; [exact E2|].
  assert (T : truthy (ControlledLayer.stdp_decay ex_plastic) = true)
    by (apply truthy_nonzero; lra).
  destruct (plasticity_accumulates ex_plastic 2 _ _ _ _ _ _ _ _ _ _ _ eq_refl T E1 E2)
    as (a0 & b0 & p1 & q1 & p2 & q2 & Ha & Hb & S1 & S2 & H).
  cbv zeta in H. destruct H as (_ & _ & _ & A2 & B2 & G2).
  simpl in S1, S2. injection S1 as <- <-. injection S2 as <- <-.
  eexists _, _, _, _. split; [exact A2|]. split; [exact B2|]. exact G2.
Defined.

Lemma controller_integral_law_witness :
  exists n1 n2,
    ControlledNetwork.evolve_controller ex_net [0] [1] = Some n1 /\
    ControlledNetwork.evolve_controller n1 [1] [1] = Some n2 /\
    nth 0 (ControlledNetwork.c n2) 0 = 0 + 1 / 10 * (1 - 0) + 1 / 10 * (1 - 1).
Proof.
  destruct (controller_integral_law ex_net [0] [1] [1] [1] eq_refl eq_refl eq_refl eq_refl)
    as (n1 & n2 & E1 & _ & E2 & _ & H).
  exists n1, n2. split; [exact E1|]. split; [exact E2|].
  apply (H 0%nat). simpl. lia.
Defined.

Lemma spike_indicators_binary_witness :
  exists out l' g',
    ControlledLayer.forward ex_plastic [1] [0] g_half = Some (out, l', g') /\
    binary out.
Proof.
  assert (T : truthy (ControlledLayer.stdp_decay ex_plastic) = true)
    by (apply truthy_nonzero; lra).
  destruct (forward_defined ex_plastic [1] [0] g_half) as (out & l' & g' & E);
    [reflexivity | reflexivity | intros _; split; discriminate |].
  exists out, l', g'. split; [exact E|].
  exact (proj1 (spike_indicators_binary ex_plastic [1] [0] g_half out l' g'
                  [1] out g_half T E eq_refl)).
Defined.

Lemma zero_drive_decay_witness :
  exists out l' g',
    ControlledLayer.forward ex_rate_charged (zeros 1) (zeros 1) g_half = Some (out, l', g') /\
    Rabs (nth 0 (ControlledLayer.v l') 0) < Rabs (1 / 2).
Proof.
  destruct (forward_defined ex_rate_charged (zeros 1) (zeros 1) g_half)
    as (out & l' & g' & E);
    [reflexivity | reflexivity | apply plastic_ok_off; reflexivity |].
  exists out, l', g'. split; [exact E|].
  assert (W : ControlledLayer.wf ex_rate_charged) by (repeat split).
  assert (L : 0 <= ControlledLayer.leak ex_rate_charged < 1) by (simpl; lra).
  destruct (zero_drive_decay ex_rate_charged 1 1 g_half out l' g' 0 W L E) as [_ H];
    [simpl; lia|].
  apply H; simpl; lra.
Defined.

(** ** Further properties: sampling and the two dynamics *)

Lemma Rgtb_spec x y : (Rgtb x y = true /\ x > y) \/ (Rgtb x y = false /\ x <= y).
Proof.
  unfold Rgtb. destruct (Rgt_dec x y); [left; auto | right; split; [reflexivity | lra]].
Qed.

Lemma nth_rand_like n g i :
  (i < n)%nat -> nth i (fst (rand_like n g)) 0 = draw g (pos g + i).
Proof.
  intros H. unfold rand_like. simpl.
  rewrite (nth_map_lt (draw g) (seq (pos g) n) i O 0) by now rewrite length_seq.
  now rewrite seq_nth.
Qed.

(** X1. [spikify] returns a 0/1 vector of the length of its argument and
    advances the generator by that many draws; entry [i] is 1 exactly when the
    rate exceeds draw [i].  With draws in the half-open unit interval a rate of
    at least 1 always spikes and a rate of at most 0 never does. *)
Theorem spikify_sampling r g i :
  draws_unit g -> (i < length r)%nat ->
  let s := fst (spikify r g) in
  let g' := snd (spikify r g) in
  length s = length r /\ binary s /\
  pos g' = (pos g + length r)%nat /\ draw g' = draw g /\
  nth i s 0 = b2r (Rgtb (nth i r 0) (draw g (pos g + i))) /\
  (nth i r 0 >= 1 -> nth i s 0 = 1) /\
  (nth i r 0 <= 0 -> nth i s 0 = 0).
Proof.
  intros U Hi. cbv zeta.
  pose proof (spikify_binary r g) as B.
  assert (E : nth i (fst (spikify r g)) 0 = b2r (Rgtb (nth i r 0) (draw g (pos g + i)))).
  { unfold spikify, rand_like. simpl.
    rewrite (nth_map2 (fun x u => b2r (Rgtb x u)) r _ i 0 0 0);
      [| exact Hi | now rewrite length_map, length_seq].
    f_equal. f_equal. exact (nth_rand_like (length r) g i Hi). }
  split; [|split; [exact B|split; [reflexivity|split; [reflexivity|split; [exact E|]]]]].
  - unfold spikify, rand_like. simpl.
    rewrite map2_length, length_map, length_seq. lia.
  - rewrite E. pose proof (U (pos g + i)%nat) as [U0 U1]. split; intros H.
    + rewrite Rgtb_true by lra. reflexivity.
    + rewrite Rgtb_false by lra. reflexivity.
Qed.

Lemma spikify_sampling_witness :
  fst (spikify [2; -1; 1 / 4] g_half) = [1; 0; 0].
Proof.
  assert (U : draws_unit g_half) by (intros i; simpl; lra).
  pose proof (spikify_sampling [2; -1; 1 / 4] g_half 0 U ltac:(simpl; lia))
    as (_ & _ & _ & _ & _ & H0 & _).
  pose proof (spikify_sampling [2; -1; 1 / 4] g_half 1 U ltac:(simpl; lia))
    as (_ & _ & _ & _ & _ & _ & H1).
  pose proof (spikify_sampling [2; -1; 1 / 4] g_half 2 U ltac:(simpl; lia))
    as (_ & _ & _ & _ & H2 & _).
  cbn in *. rewrite (H0 ltac:(lra)), (H1 ltac:(lra)).
  rewrite Rgtb_false by lra. reflexivity.
Defined.

Lemma spiking_reset_as_map th (v1 : tensor1) :
  map2 (fun (s : bool) x => if s then 0 else x) (map (fun x => Rgtb x th) v1) v1
  = map (fun y => if Rgtb y th then 0 else y) v1.
Proof. now rewrite map2_map_l, map2_diag. Qed.

(** X2. After any successful call of a spiking layer whose threshold is not
    negative, no unit's stored potential exceeds the threshold, the output is
    a 0/1 vector, and a unit whose output is 1 holds potential 0. *)
Theorem spiking_forward_below_threshold l inputs c g out l' g' i :
  ControlledLayer.mode l = spiking ->
  0 <= ControlledLayer.threshold l ->
  ControlledLayer.forward l inputs c g = Some (out, l', g') ->
  (i < length (ControlledLayer.v l'))%nat ->
  Forall (fun y => y <= ControlledLayer.threshold l) (ControlledLayer.v l') /\
  binary out /\
  length out = length (ControlledLayer.v l') /\
  (nth i out 0 = 1 -> nth i (ControlledLayer.v l') 0 = 0).
Proof.
  intros Hm Ht H Hi.
  apply forward_inv in H as (_ & _ & Hout & Hv). cbv zeta in Hout, Hv.
  set (l1 := ControlledLayer.set_v l _) in *.
  assert (Hm1 : ControlledLayer.mode l1 = spiking) by exact Hm.
  unfold ControlledLayer.dynamics in Hout, Hv. rewrite Hm1 in Hout, Hv.
  unfold ControlledLayer._spiking_dynamics in Hout, Hv. simpl in Hout, Hv.
  rewrite spiking_reset_as_map in Hv. rewrite map_map in Hout.
  set (v1 := ControlledLayer.integrate _ _ _) in *.
  set (th := ControlledLayer.threshold l) in *.
  assert (Li : (i < length v1)%nat) by (rewrite Hv, length_map in Hi; exact Hi).
  split; [|split; [|split]].
  - rewrite Hv. apply Forall_forall. intros y Hy. apply in_map_iff in Hy as (x & <- & _).
    destruct (Rgtb_spec x th) as [[E _] | [E Hx]]; rewrite E; lra.
  - rewrite Hout. rewrite <- map_map. apply binary_b2r.
  - rewrite Hout, Hv, !length_map. reflexivity.
  - rewrite Hout, Hv.
    rewrite (nth_map_lt (fun x => b2r (Rgtb x th)) v1 i 0 0 Li).
    rewrite (nth_map_lt (fun y => if Rgtb y th then 0 else y) v1 i 0 0 Li).
    destruct (Rgtb (nth i v1 0) th); simpl; [reflexivity | lra].
Qed.

Lemma spiking_forward_below_threshold_witness :
  exists out l' g',
    ControlledLayer.forward ex_spiking [1] [0] g_half = Some (out, l', g') /\
    Forall (fun y => y <= 1) (ControlledLayer.v l').
Proof.
  destruct (forward_defined ex_spiking [1] [0] g_half) as (out & l' & g' & E);
    [reflexivity | reflexivity | apply plastic_ok_off; reflexivity |].
  exists out, l', g'. split; [exact E|].
  pose proof (forward_inv _ _ _ _ _ _ _ E) as (_ & _ & _ & Hv).
  assert (L : (0 < length (ControlledLayer.v l'))%nat).
  { rewrite Hv. rewrite (proj2 (dynamics_lengths _)). simpl. lia. }
  assert (T : 0 <= ControlledLayer.threshold ex_spiking) by (simpl; lra).
  exact (proj1 (spiking_forward_below_threshold ex_spiking [1] [0] g_half out l' g' 0
                  eq_refl T E L)).
Defined.

Lemma sigmoid_half x :
  (0 <= x -> 1 / 2 <= sigmoid x) /\ (x <= 0 -> sigmoid x <= 1 / 2).
Proof.
  unfold sigmoid. pose proof (exp_pos (- x)) as E.
  assert (H2 : 1 / 2 = / 2) by lra. rewrite H2. split; intros Hx.
  - assert (exp (- x) <= 1).
    { destruct (Req_dec x 0) as [->|N].
      - rewrite Ropp_0, exp_0. lra.
      - rewrite <- exp_0. left. apply exp_increasing. lra. }
    apply Rinv_le_contravar; lra.
  - assert (1 <= exp (- x)).
    { destruct (Req_dec x 0) as [->|N].
      - rewrite Ropp_0, exp_0. lra.
      - rewrite <- exp_0. left. apply exp_increasing. lra. }
    apply Rinv_le_contravar; lra.
Qed.

(** X3. In rate mode a successful call never resets the potential, and the
    output follows the sign of what is stored: the stored potential is the
    leaky integration of the old one with the two currents, the output has
    its length, every output entry lies between 0 and 1 (bounds included, as
    holds of a saturated sigmoid too), and a unit's output is at least 1/2
    where its stored potential is not negative and at most 1/2 where it is
    not positive. *)
Theorem rate_forward_output l inputs c g out l' g' :
  ControlledLayer.mode l = rate ->
  ControlledLayer.forward l inputs c g = Some (out, l', g') ->
  ControlledLayer.v l' =
    vadd (vadd (smul (1 - ControlledLayer.leak l) (ControlledLayer.v l))
               (matvec (weight (ControlledLayer.ff l)) inputs))
         (matvec (weight (ControlledLayer.fb l)) c) /\
  length out = length (ControlledLayer.v l') /\
  unit_closed out /\
  Forall2 (fun p o => (0 <= p -> 1 / 2 <= o) /\ (p <= 0 -> o <= 1 / 2))
          (ControlledLayer.v l') out.
Proof.
  intros Hm H.
  apply forward_inv in H as (_ & _ & Hout & Hv). cbv zeta in Hout, Hv.
  unfold ControlledLayer.integrate in Hout, Hv. rewrite integrate_leaky in Hout, Hv.
  set (l1 := ControlledLayer.set_v l _) in *.
  assert (Hm1 : ControlledLayer.mode l1 = rate) by exact Hm.
  pose proof (rate_output_unit l1 Hm1) as U.
  unfold ControlledLayer.dynamics in Hout, Hv, U. rewrite Hm1 in Hout, Hv, U.
  simpl in Hout, Hv, U.
  split; [exact Hv|]. rewrite Hout, Hv.
  split; [apply length_map|]. split; [apply unit_open_closed; exact U|].
  generalize (vadd (vadd (smul (1 - ControlledLayer.leak l) (ControlledLayer.v l))
                         (matvec (weight (ControlledLayer.ff l)) inputs))
                   (matvec (weight (ControlledLayer.fb l)) c)) as v1.
  induction v1 as [|y v1 IH]; simpl; constructor; [apply sigmoid_half | exact IH].
Qed.

Lemma rate_forward_output_witness :
  exists out l' g',
    ControlledLayer.forward ex_rate [1] [0] g_half = Some (out, l', g') /\
    unit_closed out /\
    Forall2 (fun p o => (0 <= p -> 1 / 2 <= o) /\ (p <= 0 -> o <= 1 / 2))
            (ControlledLayer.v l') out.
Proof.
  destruct (forward_defined ex_rate [1] [0] g_half) as (out & l' & g' & E);
    [reflexivity | reflexivity | apply plastic_ok_off; reflexivity |].
  exists out, l', g'. split; [exact E|].
  exact (proj2 (proj2 (rate_forward_output ex_rate [1] [0] g_half out l' g' eq_refl E))).
Defined.

(** X4. A layer whose traces exist when plasticity is on raises in [forward]
    exactly when the input does not have the width of the feed-forward
    projection or the controller does not have the width of the feedback
    projection. *)
Theorem forward_raises_iff l inputs c g :
  plastic_ok l ->
  (ControlledLayer.forward l inputs c g = None <->
   length inputs <> in_features (ControlledLayer.ff l) \/
   length c <> in_features (ControlledLayer.fb l)).
Proof.
  intros P. split.
  - intros H.
    destruct (Nat.eq_dec (length inputs) (in_features (ControlledLayer.ff l))) as [E1|]; [|auto].
    destruct (Nat.eq_dec (length c) (in_features (ControlledLayer.fb l))) as [E2|]; [|auto].
    destruct (forward_defined l inputs c g E1 E2 P) as (o & l' & g' & E). congruence.
  - intros H. destruct (ControlledLayer.forward l inputs c g) as [[[o l'] g']|] eqn:E;
      [|reflexivity].
    apply forward_inv in E as (E1 & E2 & _). destruct H; contradiction.
Qed.

Lemma forward_raises_iff_witness :
  ControlledLayer.forward ex_spiking [1; 1] [0] g_half = None.
Proof.
  apply (forward_raises_iff ex_spiking [1; 1] [0] g_half).
  - apply plastic_ok_off. reflexivity.
  - left. simpl. lia.
Defined.

(** X5. A successful call never reseeds the generator, and it draws from it
    only in rate mode with plasticity on, where it draws one number per input
    entry and then one per output entry; in spiking mode, or with plasticity
    off, the generator is left exactly where it was. *)
Theorem forward_draws l inputs c g out l' g' :
  ControlledLayer.forward l inputs c g = Some (out, l', g') ->
  draw g' = draw g /\
  pos g' =
    (pos g +
     match ControlledLayer.mode l, truthy (ControlledLayer.stdp_decay l) with
     | rate, true => length inputs + length out
     | _, _ => 0
     end)%nat.
Proof.
  intros H. apply forward_cases in H. cbv zeta in H.
  destruct H as [(T & _ & ->) | (T & a & b & p & q & _ & _ & S & _)]; rewrite T.
  - destruct (ControlledLayer.mode l); split; auto.
  - unfold ControlledLayer.spike_indicators in S.
    destruct (ControlledLayer.mode l).
    + injection S as _ _ <-. split; auto.
    + unfold spikify, rand_like in S. simpl in S. injection S as _ _ <-. simpl.
      split; [reflexivity | lia].
Qed.

Lemma forward_draws_witness :
  exists out l' g',
    ControlledLayer.forward ex_plastic [1] [0] g_half = Some (out, l', g') /\
    pos g' = pos g_half.
Proof.
  destruct (forward_defined ex_plastic [1] [0] g_half) as (out & l' & g' & E);
    [reflexivity | reflexivity | intros _; split; discriminate |].
  exists out, l', g'. split; [exact E|].
  destruct (forward_draws _ _ _ _ _ _ _ E) as [_ H]. rewrite H. simpl. lia.
Defined.

(** ** Further properties: the constructors *)

Lemma parse_mode_none m :
  ControlledLayer.parse_mode m = None <-> (m <> "spiking" /\ m <> "rate")%string.
Proof.
  unfold ControlledLayer.parse_mode.
  destruct (String.eqb_spec m "spiking") as [->|N1].
  - split; [discriminate | intros [H _]; contradiction].
  - destruct (String.eqb_spec m "rate") as [->|N2].
    + split; [discriminate | intros [_ H]; contradiction].
    + split; auto.
Qed.

Lemma layer_init_none fan_in fan_out cdim m lk tau w :
  ControlledLayer.init fan_in fan_out cdim m lk tau w = None <->
  ControlledLayer.parse_mode m = None.
Proof.
  unfold ControlledLayer.init. destruct (ControlledLayer.parse_mode m); split;
    intros H; (discriminate || reflexivity).
Qed.

Lemma init_layers_none widths :
  forall cdim m lk tau w k,
  ControlledNetwork.init_layers widths cdim m lk tau w k = None <->
  ((2 <= length widths)%nat /\ ControlledLayer.parse_mode m = None).
Proof.
  induction widths as [|a rest IH]; intros cdim m lk tau w k.
  - simpl. split; [discriminate | intros [H _]; lia].
  - destruct rest as [|b rest'].
    + simpl. split; [discriminate | intros [H _]; lia].
    + rewrite init_layers_cons.
      destruct (ControlledLayer.init a b cdim m lk tau (w k)) as [l|] eqn:E.
      * assert (M : ControlledLayer.parse_mode m <> None).
        { intros M. apply (layer_init_none a b cdim m lk tau (w k)) in M.
          rewrite M in E. discriminate. }
        destruct (ControlledNetwork.init_layers (b :: rest') cdim m lk tau w (S k))
          as [ls|] eqn:E'.
        -- split; [discriminate | intros [_ H]; contradiction].
        -- apply IH in E' as [_ H]. contradiction.
      * apply layer_init_none in E. split; [|reflexivity].
        intros _. split; [simpl; lia | exact E].
Qed.

(** X6. Building a network fails exactly when the list of widths is empty, or
    it has at least two widths (so that a layer is built) and the mode is
    neither "spiking" nor "rate"; with a single width no layer is built and
    any mode string is accepted. *)
Theorem network_init_raises_iff widths m lk cr tau prec tr w :
  ControlledNetwork.init widths m lk cr tau prec tr w = None <->
  widths = [] \/
  ((2 <= length widths)%nat /\ (m <> "spiking" /\ m <> "rate")%string).
Proof.
  rewrite <- parse_mode_none. unfold ControlledNetwork.init.
  destruct widths as [|a rest].
  - split; [auto | reflexivity].
  - destruct (ControlledNetwork.init_layers (a :: rest) _ m lk tau w 0) as [ls|] eqn:E.
    + split; [discriminate|]. intros [H | H]; [discriminate|].
      rewrite (proj2 (init_layers_none _ _ _ _ _ _ _) H) in E. discriminate.
    + apply init_layers_none in E. split; [auto | reflexivity].
Qed.

Lemma init_layers_fresh widths :
  forall cdim m lk tau w k ls,
  ControlledNetwork.init_layers widths cdim m lk tau w k = Some ls ->
  length ls = (length widths - 1)%nat /\
  Forall (fun l =>
            ControlledLayer.v l = zeros (ControlledLayer.fan_out l) /\
            ControlledLayer.grad l = None /\
            ControlledLayer.threshold l = 1 /\
            ControlledLayer.leak l = lk /\
            weight (ControlledLayer.fb l) = eye (ControlledLayer.fan_out l) cdim) ls.
Proof.
  induction widths as [|a rest IH]; intros cdim m lk tau w k ls.
  - simpl. intros H; injection H as <-. auto.
  - destruct rest as [|b rest'].
    + simpl. intros H; injection H as <-. auto.
    + rewrite init_layers_cons.
      destruct (ControlledLayer.init a b cdim m lk tau (w k)) as [l|] eqn:E; [|discriminate].
      destruct (ControlledNetwork.init_layers (b :: rest') cdim m lk tau w (S k))
        as [ls'|] eqn:E'; [|discriminate].
      intros H; injection H as <-. apply IH in E' as [L F].
      split; [simpl in *; lia|]. constructor; [|exact F].
      unfold ControlledLayer.init in E.
      destruct (ControlledLayer.parse_mode m); [|discriminate].
      injection E as <-. simpl. auto.
Qed.

(** X7. A network that was built has one layer per consecutive pair of
    widths, a zero controller of the last width, and in every layer a zero
    potential, no gradient buffer, threshold 1, the given leak and the
    identity pattern as feedback weight; its shapes fit inputs of the first
    width. *)
Theorem network_init_fresh widths m lk cr tau prec tr w n :
  ControlledNetwork.init widths m lk cr tau prec tr w = Some n ->
  length (ControlledNetwork.layers n) = (length widths - 1)%nat /\
  length (ControlledNetwork.parameters n) = (length widths - 1)%nat /\
  ControlledNetwork.c n = zeros (last widths O) /\
  ControlledNetwork.controller_rate n = cr /\
  ControlledNetwork.ctr_precision n = prec /\
  wf_net n (hd O widths) /\
  Forall (fun l =>
            ControlledLayer.v l = zeros (ControlledLayer.fan_out l) /\
            ControlledLayer.grad l = None /\
            ControlledLayer.threshold l = 1 /\
            ControlledLayer.leak l = lk /\
            weight (ControlledLayer.fb l) = eye (ControlledLayer.fan_out l) (last widths O))
         (ControlledNetwork.layers n).
Proof.
  intros H. pose proof (init_wf_net _ _ _ _ _ _ _ _ _ H) as (W & _ & _).
  unfold ControlledNetwork.init in H. destruct widths as [|a rest]; [discriminate|].
  destruct (ControlledNetwork.init_layers (a :: rest) _ m lk tau w 0) as [ls|] eqn:E;
    [|discriminate].
  injection H as <-. apply init_layers_fresh in E as [L F].
  unfold ControlledNetwork.parameters. rewrite length_map. simpl ControlledNetwork.layers.
  split; [exact L|]. split; [exact L|]. do 3 (split; [reflexivity|]).
  split; [exact W | exact F].
Qed.

Lemma network_init_fresh_witness :
  length (ControlledNetwork.layers ex_net) = 1%nat /\ ControlledNetwork.c ex_net = zeros 1.
Proof.
  destruct (network_init_fresh _ _ _ _ _ _ _ _ _ ex_net_init) as (L & _ & C & _).
  split; [exact L | exact C].
Defined.

Lemma dot_indicator (c : tensor1) :
  forall start i,
  dot (map (fun j => if (i =? j)%nat then 1 else 0) (seq start (length c))) c
  = if (start <=? i)%nat then nth (i - start) c 0 else 0.
Proof.
  induction c as [|y c IH]; intros start i; cbn [length seq map dot].
  - destruct (start <=? i)%nat; [destruct (i - start)%nat|]; reflexivity.
  - rewrite IH.
    destruct (Nat.eqb_spec i start) as [->|N].
    + rewrite Nat.leb_refl, Nat.sub_diag.
      rewrite (proj2 (Nat.leb_gt (S start) start)) by lia. cbn [nth]. lra.
    + destruct (Nat.leb_spec start i) as [H1|H1].
      * rewrite (proj2 (Nat.leb_le (S start) i)) by lia.
        replace (i - start)%nat with (S (i - S start)) by lia. cbn [nth]. lra.
      * rewrite (proj2 (Nat.leb_gt (S start) i)) by lia. lra.
Qed.

(** X8. The feedback projection of a freshly built layer hands controller
    entry [i] to unit [i]: for a controller of the layer's controller
    dimension, unit [i] receives [c_i] when [i] is below that dimension and 0
    otherwise. *)
Theorem eye_feedback fan_in fan_out cdim m lk tau w l c i :
  ControlledLayer.init fan_in fan_out cdim m lk tau w = Some l ->
  length c = cdim -> (i < fan_out)%nat ->
  length (matvec (weight (ControlledLayer.fb l)) c) = fan_out /\
  nth i (matvec (weight (ControlledLayer.fb l)) c) 0
  = if (i <? cdim)%nat then nth i c 0 else 0.
Proof.
  intros H Hc Hi. unfold ControlledLayer.init in H.
  destruct (ControlledLayer.parse_mode m); [|discriminate].
  injection H as <-. simpl. unfold eye, init_weight, matvec. rewrite map_map.
  split; [now rewrite length_map, length_seq|].
  rewrite (nth_map_lt _ (seq 0 fan_out) i O 0) by now rewrite length_seq.
  rewrite seq_nth by exact Hi. simpl. subst cdim.
  rewrite (dot_indicator c 0 i). cbn [Nat.leb]. rewrite Nat.sub_0_r.
  destruct (Nat.ltb_spec i (length c)); [reflexivity | now apply nth_overflow].
Qed.

Lemma eye_feedback_witness :
  nth 0 (matvec (weight (ControlledLayer.fb ex_spiking)) [7]) 0 = 7.
Proof.
  exact (proj2 (eye_feedback 1 1 1 "spiking" (9 / 10) (PyBool false) (fun _ _ => 2)
                  ex_spiking [7] 0 ex_spiking_init eq_refl (le_n 1))).
Defined.

(** ** Further properties: reset *)

Lemma forward_plastic_ok l inputs c g out l' g' :
  ControlledLayer.forward l inputs c g = Some (out, l', g') -> plastic_ok l'.
Proof.
  intros H T.
  pose proof (forward_frame _ _ _ _ _ _ _ H) as (_ & _ & _ & _ & _ & _ & _ & F8).
  apply forward_cases in H. cbv zeta in H.
  destruct H as [(T' & _) | (_ & a & b & p & q & _ & _ & _ & ->)].
  - rewrite F8 in T. congruence.
  - simpl. split; discriminate.
Qed.

Lemma dynamics_same a b :
  ControlledLayer.v a = ControlledLayer.v b ->
  ControlledLayer.threshold a = ControlledLayer.threshold b ->
  ControlledLayer.mode a = ControlledLayer.mode b ->
  fst (ControlledLayer.dynamics a) = fst (ControlledLayer.dynamics b) /\
  ControlledLayer.v (snd (ControlledLayer.dynamics a))
  = ControlledLayer.v (snd (ControlledLayer.dynamics b)).
Proof.
  intros Hv Ht Hm.
  unfold ControlledLayer.dynamics, ControlledLayer._spiking_dynamics,
    ControlledLayer._rate_dynamics.
  rewrite Hm. destruct (ControlledLayer.mode b); simpl; rewrite Hv, ?Ht; auto.
Qed.

(** One call on two layers with the same configuration, weights and
    potential: the same output and the same new potential, whatever the
    traces, buffers and generators. *)
Lemma forward_same_dynamics a b x c g1 g2 :
  same_dynamics a b -> ControlledLayer.v a = ControlledLayer.v b ->
  plastic_ok a -> plastic_ok b ->
  match ControlledLayer.forward a x c g1, ControlledLayer.forward b x c g2 with
  | Some (o1, a', _), Some (o2, b', _) =>
      o1 = o2 /\ same_dynamics a' b' /\ ControlledLayer.v a' = ControlledLayer.v b' /\
      plastic_ok a' /\ plastic_ok b'
  | None, None => True
  | _, _ => False
  end.
Proof.
  intros S Hv Pa Pb.
  pose proof S as (S1 & S2 & S3 & S4 & S5 & S6 & S7 & S8).
  destruct (ControlledLayer.forward a x c g1) as [[[o1 a'] g1']|] eqn:Ea.
  - pose proof (forward_inv _ _ _ _ _ _ _ Ea) as (L1 & L2 & Ho1 & Hv1).
    destruct (forward_defined b x c g2) as (o2 & b' & g2' & Eb);
      [congruence | congruence | exact Pb |].
    rewrite Eb.
    pose proof (forward_inv _ _ _ _ _ _ _ Eb) as (_ & _ & Ho2 & Hv2).
    cbv zeta in *.
    match type of Ho1 with _ = fst (ControlledLayer.dynamics ?la) =>
      match type of Ho2 with _ = fst (ControlledLayer.dynamics ?lb) =>
        destruct (dynamics_same la lb) as [D1 D2]
      end end.
    { simpl. unfold ControlledLayer.integrate. now rewrite S1, S5, S7, Hv. }
    { exact S2. }
    { exact S8. }
    pose proof (forward_frame _ _ _ _ _ _ _ Ea) as (A1 & A2 & A3 & A4 & A5 & A6 & A7 & _).
    pose proof (forward_frame _ _ _ _ _ _ _ Eb) as (B1 & B2 & B3 & B4 & B5 & B6 & B7 & _).
    split; [congruence|]. split; [|split; [congruence|]].
    + unfold same_dynamics. rewrite A1, A2, A3, A4, A5, A6, A7, B1, B2, B3, B4, B5, B6, B7.
      exact S.
    + split; eapply forward_plastic_ok; eauto.
  - destruct (ControlledLayer.forward b x c g2) as [[[o2 b'] g2']|] eqn:Eb; [|exact I].
    pose proof (forward_inv _ _ _ _ _ _ _ Eb) as (L1 & L2 & _).
    destruct (forward_defined a x c g1) as (o1 & a' & g1' & E);
      [congruence | congruence | exact Pa |]. congruence.
Qed.

Lemma forward_layers_same_dynamics ls1 :
  forall ls2 x c g1 g2,
  Forall2 (fun a b => same_dynamics a b /\ ControlledLayer.v a = ControlledLayer.v b
                      /\ plastic_ok a /\ plastic_ok b) ls1 ls2 ->
  same_output (ControlledNetwork.forward_layers ls1 x c g1)
              (ControlledNetwork.forward_layers ls2 x c g2).
Proof.
  induction ls1 as [|a ls1 IH]; intros ls2 x c g1 g2 F; inversion F as [|? b ? ls2' H F']; subst.
  - simpl. reflexivity.
  - destruct H as (S & Hv & Pa & Pb). simpl.
    pose proof (forward_same_dynamics a b x c g1 g2 S Hv Pa Pb) as L.
    destruct (ControlledLayer.forward a x c g1) as [[[o1 a'] g1']|],
             (ControlledLayer.forward b x c g2) as [[[o2 b'] g2']|];
      try contradiction; [|exact I].
    destruct L as (<- & _). specialize (IH ls2' o1 c g1' g2' F').
    unfold same_output in *.
    destruct (ControlledNetwork.forward_layers ls1 o1 c g1') as [[[z1 l1] h1]|],
             (ControlledNetwork.forward_layers ls2' o1 c g2') as [[[z2 l2] h2]|];
      try contradiction; auto.
Qed.

Lemma reset_layers_related ls1 :
  forall ls2,
  Forall2 same_dynamics ls1 ls2 -> Forall plastic_ok ls1 -> Forall plastic_ok ls2 ->
  Forall2 (fun a b => same_dynamics a b /\ ControlledLayer.v a = ControlledLayer.v b
                      /\ plastic_ok a /\ plastic_ok b)
          (map ControlledLayer.reset ls1) (map ControlledLayer.reset ls2).
Proof.
  induction ls1 as [|a ls1 IH]; intros ls2 F P1 P2; inversion F as [|? b ? ls2' S F']; subst;
    simpl; constructor.
  - inversion P1; inversion P2; subst.
    pose proof S as (S1 & S2 & S3 & S4 & S5 & S6 & S7 & S8).
    split; [exact S|]. split; [|split; assumption].
    unfold ControlledLayer.reset. simpl. now rewrite S3.
  - inversion P1; inversion P2; subst. now apply IH.
Qed.

(** X9. What a network answers after [reset()] does not depend on its
    history: two networks with the same configuration and weights, whatever
    their potentials, controller, traces, gradient buffers and generator
    states, give after [reset()] the same output for the same input and
    controller, and the same [feedforward] output when their controllers have
    the same dimension (or both raise). *)
Theorem forward_after_reset_history_independent n1 n2 x c g1 g2 :
  Forall2 same_dynamics (ControlledNetwork.layers n1) (ControlledNetwork.layers n2) ->
  Forall plastic_ok (ControlledNetwork.layers n1) ->
  Forall plastic_ok (ControlledNetwork.layers n2) ->
  length (ControlledNetwork.c n1) = length (ControlledNetwork.c n2) ->
  same_output (ControlledNetwork.forward (ControlledNetwork.reset n1) x c g1)
              (ControlledNetwork.forward (ControlledNetwork.reset n2) x c g2) /\
  same_output (ControlledNetwork.feedforward (ControlledNetwork.reset n1) x g1)
              (ControlledNetwork.feedforward (ControlledNetwork.reset n2) x g2).
Proof.
  intros F P1 P2 Lc.
  pose proof (reset_layers_related _ _ F P1 P2) as RL.
  assert (Z : map (fun _ : R => 0) (map (fun _ : R => 0) (ControlledNetwork.c n1))
              = map (fun _ : R => 0) (map (fun _ : R => 0) (ControlledNetwork.c n2))).
  { rewrite !map_map. revert Lc. generalize (ControlledNetwork.c n2).
    induction (ControlledNetwork.c n1) as [|y c1 IH]; intros [|z c2] L; simpl in *;
      try discriminate; [reflexivity|]. f_equal. apply IH. congruence. }
  assert (G : forall c', same_output
                (ControlledNetwork.forward (ControlledNetwork.reset n1) x c' g1)
                (ControlledNetwork.forward (ControlledNetwork.reset n2) x c' g2)).
  { intros c'. unfold ControlledNetwork.forward, ControlledNetwork.reset. simpl.
    pose proof (forward_layers_same_dynamics _ _ x c' g1 g2 RL) as H.
    unfold same_output in *.
    destruct (ControlledNetwork.forward_layers _ x c' g1) as [[[z1 l1] h1]|],
             (ControlledNetwork.forward_layers _ x c' g2) as [[[z2 l2] h2]|];
      try contradiction; auto. }
  split; [apply G|].
  unfold ControlledNetwork.feedforward. simpl ControlledNetwork.c at 1 2.
  rewrite Z. apply G.
Qed.

Lemma forward_after_reset_history_independent_witness :
  same_output (ControlledNetwork.feedforward (ControlledNetwork.reset ex_net) [1] g_half)
              (ControlledNetwork.feedforward (ControlledNetwork.reset ex_net_used) [1] g_half).
Proof.
  refine (proj2 (forward_after_reset_history_independent ex_net ex_net_used [1] [0]
                   g_half g_half _ _ _ eq_refl)).
  - constructor; [repeat split | constructor].
  - constructor; [apply plastic_ok_off; reflexivity | constructor].
  - constructor; [apply plastic_ok_off; reflexivity | constructor].
Defined.

Lemma layer_reset_fixed l :
  ControlledLayer.v l = zeros (ControlledLayer.fan_out l) -> ControlledLayer.reset l = l.
Proof.
  destruct l. simpl. intros ->. reflexivity.
Qed.

Lemma map_zero_zeros k : map (fun _ : R => 0) (zeros k) = zeros k.
Proof. unfold zeros. induction k; simpl; [reflexivity | now rewrite IHk]. Qed.

(** X10. [reset()] on a network that was just built changes nothing: the
    constructor leaves the network in the state [reset()] produces. *)
Theorem reset_fresh_is_identity widths m lk cr tau prec tr w n :
  ControlledNetwork.init widths m lk cr tau prec tr w = Some n ->
  ControlledNetwork.reset n = n.
Proof.
  intros H. unfold ControlledNetwork.init in H. destruct widths as [|a rest]; [discriminate|].
  destruct (ControlledNetwork.init_layers (a :: rest) _ m lk tau w 0) as [ls|] eqn:E;
    [|discriminate].
  injection H as <-. apply init_layers_fresh in E as [_ F].
  unfold ControlledNetwork.reset. simpl. rewrite map_zero_zeros. f_equal.
  induction F as [|l ls' (Hv & _) _ IH]; simpl; [reflexivity|].
  now rewrite IH, layer_reset_fixed.
Qed.

Lemma reset_fresh_is_identity_witness : ControlledNetwork.reset ex_net = ex_net.
Proof. exact (reset_fresh_is_identity _ _ _ _ _ _ _ _ _ ex_net_init). Defined.

(** [reset()] is idempotent. *)
Lemma reset_idempotent n :
  ControlledNetwork.reset (ControlledNetwork.reset n) = ControlledNetwork.reset n.
Proof.
  unfold ControlledNetwork.reset. simpl. f_equal.
  - rewrite map_map. apply map_ext. intros l. reflexivity.
  - rewrite map_map. reflexivity.
Qed.

(** ** Further properties: what the convergence loop leaves alone *)

Lemma same_dynamics_refl l : same_dynamics l l.
Proof. repeat split. Qed.

Lemma same_dynamics_trans a b c :
  same_dynamics a b -> same_dynamics b c -> same_dynamics a c.
Proof.
  intros (A1 & A2 & A3 & A4 & A5 & A6 & A7 & A8) (B1 & B2 & B3 & B4 & B5 & B6 & B7 & B8).
  repeat split; congruence.
Qed.

Lemma Forall2_same_dynamics_refl ls : Forall2 same_dynamics ls ls.
Proof. induction ls; constructor; auto using same_dynamics_refl. Qed.

Lemma Forall2_same_dynamics_trans ls1 :
  forall ls2 ls3,
  Forall2 same_dynamics ls1 ls2 -> Forall2 same_dynamics ls2 ls3 ->
  Forall2 same_dynamics ls1 ls3.
Proof.
  induction ls1 as [|a ls1 IH]; intros ls2 ls3 F G; inversion F; subst; inversion G; subst;
    constructor; eauto using same_dynamics_trans.
Qed.

Lemma forward_same_config l inputs c g out l' g' :
  ControlledLayer.forward l inputs c g = Some (out, l', g') -> same_dynamics l l'.
Proof.
  intros H.
  pose proof (forward_frame _ _ _ _ _ _ _ H) as (A1 & A2 & A3 & A4 & A5 & A6 & A7 & _).
  unfold same_dynamics. rewrite A1, A2, A3, A4, A5, A6, A7. repeat split.
Qed.

(** A layer with plasticity off keeps its feed-forward module, buffer
    included, and its traces, and leaves the generator alone. *)
Lemma forward_off_frame l inputs c g out l' g' :
  plasticity_off l ->
  ControlledLayer.forward l inputs c g = Some (out, l', g') ->
  plasticity_off l' /\ g' = g /\
  ControlledLayer.ff l' = ControlledLayer.ff l /\
  ControlledLayer.Apre l' = ControlledLayer.Apre l /\
  ControlledLayer.Apost l' = ControlledLayer.Apost l.
Proof.
  intros T H.
  pose proof (forward_frame _ _ _ _ _ _ _ H) as (_ & _ & _ & _ & _ & _ & _ & F8).
  apply forward_cases in H. cbv zeta in H.
  destruct H as [(_ & -> & ->) | (T' & _)]; [|unfold plasticity_off in T; congruence].
  match goal with |- context [ControlledLayer.dynamics ?x] =>
    pose proof (dynamics_frame x) as (_ & _ & _ & F4 & _ & _ & F7 & F8' & F9) end.
  cbv zeta in *. unfold plasticity_off. rewrite F7, F4, F8', F9. simpl. auto.
Qed.

Lemma forward_layers_frame ls :
  forall x c g out ls' g',
  ControlledNetwork.forward_layers ls x c g = Some (out, ls', g') ->
  Forall2 same_dynamics ls ls' /\
  (Forall plasticity_off ls ->
   Forall plasticity_off ls' /\ g' = g /\
   Forall2 (fun l l' => ControlledLayer.ff l' = ControlledLayer.ff l /\
                        ControlledLayer.Apre l' = ControlledLayer.Apre l /\
                        ControlledLayer.Apost l' = ControlledLayer.Apost l) ls ls').
Proof.
  induction ls as [|l ls IH]; intros x c g out ls' g'; simpl.
  - intros H; injection H as <- <- <-. split; [constructor|]. intros _. auto.
  - destruct (ControlledLayer.forward l x c g) as [[[y l1] g1]|] eqn:E; [|discriminate].
    destruct (ControlledNetwork.forward_layers ls y c g1) as [[[z ls1] g2]|] eqn:E';
      [|discriminate].
    intros H; injection H as <- <- <-.
    apply IH in E' as [F G]. split.
    + constructor; [eapply forward_same_config; eauto | exact F].
    + intros P. inversion P as [|? ? Pl Pls]; subst.
      destruct (forward_off_frame _ _ _ _ _ _ _ Pl E) as (Pl' & -> & Fr).
      destruct (G Pls) as (Pls' & -> & Frs).
      split; [constructor; assumption|]. split; [reflexivity|]. constructor; assumption.
Qed.

Lemma iadd_length a b c' : iadd a b = Some c' -> length c' = length a.
Proof.
  unfold iadd. destruct (length a =? length b)%nat eqn:E.
  - intros H; injection H as <-. apply Nat.eqb_eq in E. rewrite map2_length. lia.
  - destruct (length b =? 1)%nat; [|discriminate].
    intros H; injection H as <-. apply length_map.
Qed.

(** What one pass of the loop body keeps. *)
Lemma loop_body_frame x ct n g o n2 g2 :
  loop_body x ct (n, g) = Some (o, (n2, g2)) ->
  Forall2 same_dynamics (ControlledNetwork.layers n) (ControlledNetwork.layers n2) /\
  ControlledNetwork.controller_rate n2 = ControlledNetwork.controller_rate n /\
  ControlledNetwork.ctr_precision n2 = ControlledNetwork.ctr_precision n /\
  ControlledNetwork.target_rates n2 = ControlledNetwork.target_rates n /\
  length (ControlledNetwork.c n2) = length (ControlledNetwork.c n) /\
  (Forall plasticity_off (ControlledNetwork.layers n) ->
   Forall plasticity_off (ControlledNetwork.layers n2) /\ g2 = g /\
   Forall2 (fun l l' => ControlledLayer.ff l' = ControlledLayer.ff l /\
                        ControlledLayer.Apre l' = ControlledLayer.Apre l /\
                        ControlledLayer.Apost l' = ControlledLayer.Apost l)
           (ControlledNetwork.layers n) (ControlledNetwork.layers n2)).
Proof.
  unfold loop_body, ControlledNetwork.forward, ControlledNetwork.evolve_controller. simpl.
  destruct (ControlledNetwork.forward_layers _ _ _ _) as [[[y ls] g1]|] eqn:E; [|discriminate].
  simpl. destruct (broadcast2 _ _ _) as [e|]; [|discriminate].
  destruct (iadd _ _) as [c'|] eqn:I; [|discriminate].
  intros H; injection H as <- <- <-. simpl.
  apply forward_layers_frame in E as [F G]. apply iadd_length in I.
  repeat split; try assumption; try reflexivity; apply G; assumption.
Qed.

Lemma Forall2_ff_refl (ls : list ControlledLayer.t) :
  Forall2 (fun l l' => ControlledLayer.ff l' = ControlledLayer.ff l /\
                       ControlledLayer.Apre l' = ControlledLayer.Apre l /\
                       ControlledLayer.Apost l' = ControlledLayer.Apost l) ls ls.
Proof. induction ls; constructor; auto. Qed.

Lemma Forall2_ff_trans (ls1 : list ControlledLayer.t) :
  forall ls2 ls3,
  Forall2 (fun l l' => ControlledLayer.ff l' = ControlledLayer.ff l /\
                       ControlledLayer.Apre l' = ControlledLayer.Apre l /\
                       ControlledLayer.Apost l' = ControlledLayer.Apost l) ls1 ls2 ->
  Forall2 (fun l l' => ControlledLayer.ff l' = ControlledLayer.ff l /\
                       ControlledLayer.Apre l' = ControlledLayer.Apre l /\
                       ControlledLayer.Apost l' = ControlledLayer.Apost l) ls2 ls3 ->
  Forall2 (fun l l' => ControlledLayer.ff l' = ControlledLayer.ff l /\
                       ControlledLayer.Apre l' = ControlledLayer.Apre l /\
                       ControlledLayer.Apost l' = ControlledLayer.Apost l) ls1 ls3.
Proof.
  induction ls1 as [|a ls1 IH]; intros ls2 ls3 F G; inversion F; subst; inversion G; subst;
    constructor; [|eauto].
  repeat match goal with H : _ /\ _ |- _ => destruct H end. repeat split; congruence.
Qed.

Lemma passes_frame k x ct :
  forall n g os n' g',
  passes k x ct (n, g) = Some (os, (n', g')) ->
  Forall2 same_dynamics (ControlledNetwork.layers n) (ControlledNetwork.layers n') /\
  ControlledNetwork.controller_rate n' = ControlledNetwork.controller_rate n /\
  ControlledNetwork.ctr_precision n' = ControlledNetwork.ctr_precision n /\
  ControlledNetwork.target_rates n' = ControlledNetwork.target_rates n /\
  length (ControlledNetwork.c n') = length (ControlledNetwork.c n) /\
  (Forall plasticity_off (ControlledNetwork.layers n) ->
   g' = g /\
   Forall2 (fun l l' => ControlledLayer.ff l' = ControlledLayer.ff l /\
                        ControlledLayer.Apre l' = ControlledLayer.Apre l /\
                        ControlledLayer.Apost l' = ControlledLayer.Apost l)
           (ControlledNetwork.layers n) (ControlledNetwork.layers n')).
Proof.
  induction k as [|k IH]; intros n g os n' g'; simpl.
  - intros H; inversion H; subst.
    repeat split; auto using Forall2_same_dynamics_refl, Forall2_ff_refl.
  - destruct (loop_body x ct (n, g)) as [[o [n1 g1]]|] eqn:B; [|discriminate].
    destruct (passes k x ct (n1, g1)) as [[os1 s2]|] eqn:P; [|discriminate].
    intros H; injection H as <- ->.
    apply loop_body_frame in B as (B1 & B2 & B3 & B4 & B5 & B6).
    apply IH in P as (P1 & P2 & P3 & P4 & P5 & P6).
    split; [eapply Forall2_same_dynamics_trans; eauto|].
    repeat (split; [congruence|]).
    intros Off. destruct (B6 Off) as (Off1 & -> & Fr1).
    destruct (P6 Off1) as (-> & Fr2).
    split; [reflexivity | eapply Forall2_ff_trans; eauto].
Qed.

Lemma reset_same_dynamics n :
  Forall2 same_dynamics (ControlledNetwork.layers n)
          (ControlledNetwork.layers (ControlledNetwork.reset n)).
Proof.
  unfold ControlledNetwork.reset. simpl.
  induction (ControlledNetwork.layers n); simpl; constructor; auto. repeat split.
Qed.

Lemma Forall2_same_dynamics_parameters ls1 :
  forall ls2,
  Forall2 same_dynamics ls1 ls2 ->
  map (fun l => weight (ControlledLayer.ff l)) ls1
  = map (fun l => weight (ControlledLayer.ff l)) ls2.
Proof.
  induction ls1 as [|a ls1 IH]; intros ls2 F; inversion F as [|? b ? ls2' S F']; subst;
    simpl; [reflexivity|].
  destruct S as (_ & _ & _ & _ & S5 & _). now rewrite S5, (IH ls2').
Qed.

(** X11. A run of [evolve_to_convergence] that returns has changed no
    weight and no configuration: [parameters()] is what it was, every layer
    keeps leak, threshold, mode, widths and both weight matrices, the network
    keeps its controller rate, precision and target rates, the controller
    keeps its dimension, and at least one pass was made. *)
Theorem evolve_keeps_parameters fuel net x t ct g first k net' g' :
  ControlledNetwork.evolve_to_convergence fuel net x t ct g = Returned (first, k, net', g') ->
  ControlledNetwork.parameters net' = ControlledNetwork.parameters net /\
  Forall2 same_dynamics (ControlledNetwork.layers net) (ControlledNetwork.layers net') /\
  ControlledNetwork.controller_rate net' = ControlledNetwork.controller_rate net /\
  ControlledNetwork.ctr_precision net' = ControlledNetwork.ctr_precision net /\
  ControlledNetwork.target_rates net' = ControlledNetwork.target_rates net /\
  length (ControlledNetwork.c net') = length (ControlledNetwork.c net) /\
  (1 <= k)%nat.
Proof.
  unfold ControlledNetwork.evolve_to_convergence. intros H.
  apply evolve_loop_returned in H as (j & os & -> & Hj & Hp & _).
  apply passes_frame in Hp as (P1 & P2 & P3 & P4 & P5 & _).
  assert (F : Forall2 same_dynamics (ControlledNetwork.layers net)
                      (ControlledNetwork.layers net')).
  { eapply Forall2_same_dynamics_trans; [apply reset_same_dynamics | exact P1]. }
  split; [symmetry; apply Forall2_same_dynamics_parameters; exact F|].
  split; [exact F|]. simpl in *. rewrite length_map in P5.
  repeat split; try assumption; lia.
Qed.

Lemma evolve_keeps_parameters_witness :
  exists net',
    ControlledNetwork.evolve_to_convergence 2 ex_net [9 / 20] [1] [1] g_half
    = Returned ([0], 2%nat, net', g_half) /\
    ControlledNetwork.parameters net' = [[[2]]].
Proof.
  destruct ex_net_run as [net' H]. exists net'. split; [exact H|].
  exact (proj1 (evolve_keeps_parameters _ _ _ _ _ _ _ _ _ _ H)).
Defined.

Lemma reset_plasticity_off n :
  Forall plasticity_off (ControlledNetwork.layers n) ->
  Forall plasticity_off (ControlledNetwork.layers (ControlledNetwork.reset n)).
Proof.
  unfold ControlledNetwork.reset. simpl.
  induction (ControlledNetwork.layers n); simpl; intros F; inversion F; subst;
    constructor; auto.
Qed.

Lemma reset_ff_frame n :
  Forall2 (fun l l' => ControlledLayer.ff l' = ControlledLayer.ff l /\
                       ControlledLayer.Apre l' = ControlledLayer.Apre l /\
                       ControlledLayer.Apost l' = ControlledLayer.Apost l)
          (ControlledNetwork.layers n)
          (ControlledNetwork.layers (ControlledNetwork.reset n)).
Proof.
  unfold ControlledNetwork.reset. simpl.
  induction (ControlledNetwork.layers n); simpl; constructor; auto.
Qed.

(** X12. With plasticity off in every layer, a run of [evolve_to_convergence]
    that returns has written no gradient and no trace and has drawn no random
    number: every layer's feed-forward module, gradient buffer included, and
    its traces are what they were, and the generator is where it was. *)
Theorem evolve_without_plasticity fuel net x t ct g first k net' g' :
  Forall plasticity_off (ControlledNetwork.layers net) ->
  ControlledNetwork.evolve_to_convergence fuel net x t ct g = Returned (first, k, net', g') ->
  g' = g /\
  Forall2 (fun l l' => ControlledLayer.grad l' = ControlledLayer.grad l /\
                       ControlledLayer.ff l' = ControlledLayer.ff l /\
                       ControlledLayer.Apre l' = ControlledLayer.Apre l /\
                       ControlledLayer.Apost l' = ControlledLayer.Apost l)
          (ControlledNetwork.layers net) (ControlledNetwork.layers net').
Proof.
  unfold ControlledNetwork.evolve_to_convergence. intros Off H.
  apply evolve_loop_returned in H as (j & os & -> & Hj & Hp & _).
  apply passes_frame in Hp as (_ & _ & _ & _ & _ & P6).
  destruct (P6 (reset_plasticity_off _ Off)) as (-> & Fr).
  split; [reflexivity|].
  pose proof (Forall2_ff_trans _ _ _ (reset_ff_frame net) Fr) as F.
  eapply Forall2_impl; [|exact F]. intros a b (F1 & F2 & F3).
  unfold ControlledLayer.grad. rewrite F1. auto.
Qed.

Lemma evolve_without_plasticity_witness :
  exists net',
    ControlledNetwork.evolve_to_convergence 2 ex_net [9 / 20] [1] [1] g_half
    = Returned ([0], 2%nat, net', g_half) /\
    Forall2 (fun l l' => ControlledLayer.grad l' = ControlledLayer.grad l /\
                         ControlledLayer.ff l' = ControlledLayer.ff l /\
                         ControlledLayer.Apre l' = ControlledLayer.Apre l /\
                         ControlledLayer.Apost l' = ControlledLayer.Apost l)
            (ControlledNetwork.layers ex_net) (ControlledNetwork.layers net').
Proof.
  destruct ex_net_run as [net' H]. exists net'. split; [exact H|].
  refine (proj2 (evolve_without_plasticity _ _ _ _ _ _ _ _ _ _ _ H)).
  constructor; [reflexivity | constructor].
Defined.

(** ** Further properties: the controller over a run *)

Lemma map_zero_as_zeros (c : tensor1) : map (fun _ => 0) c = zeros (length c).
Proof. unfold zeros. induction c; simpl; congruence. Qed.

(** One pass of the loop body on a well-shaped network, any mode. *)
Lemma loop_body_shapes n width x ct g :
  wf_net n width -> length x = width -> length ct = length (ControlledNetwork.c n) ->
  exists o n2 g2,
    loop_body x ct (n, g) = Some (o, (n2, g2)) /\
    wf_net n2 width /\
    length o = length (ControlledNetwork.c n) /\
    ControlledNetwork.c n2 =
      vadd (ControlledNetwork.c n)
           (smul (ControlledNetwork.controller_rate n) (vsub ct o)) /\
    length (ControlledNetwork.c n2) = length (ControlledNetwork.c n) /\
    ControlledNetwork.controller_rate n2 = ControlledNetwork.controller_rate n /\
    ControlledNetwork.ctr_precision n2 = ControlledNetwork.ctr_precision n.
Proof.
  intros [C O] Hx Hct. unfold loop_body, ControlledNetwork.forward. simpl.
  destruct (forward_layers_ok _ _ _ x (ControlledNetwork.c n) g C Hx eq_refl)
    as (o & ls' & g2 & E & C2 & O2 & L2 & _).
  rewrite E.
  assert (Lo : length o = length (ControlledNetwork.c n)) by congruence.
  rewrite evolve_controller_same_shape by (simpl; congruence).
  eexists _, _, _. split; [reflexivity|].
  assert (Lc : length (vadd (ControlledNetwork.c n)
                         (smul (ControlledNetwork.controller_rate n) (vsub ct o)))
               = length (ControlledNetwork.c n)).
  { rewrite vadd_length, smul_length, vsub_length. lia. }
  unfold wf_net. simpl. rewrite Lc.
  repeat split; try assumption; try reflexivity. congruence.
Qed.

Lemma within_precision_defined n o t :
  length t = length o -> exists b, ControlledNetwork.within_precision n o t = Some b.
Proof.
  intros L. unfold ControlledNetwork.within_precision.
  rewrite broadcast2_same by congruence.
  destruct (abs_mean _); eauto.
Qed.

Lemma evolve_loop_never_raises width x t ct :
  forall fuel n g k first,
  wf_net n width -> length x = width ->
  length ct = length (ControlledNetwork.c n) ->
  length t = length (ControlledNetwork.c n) ->
  (k = O \/ first <> None) ->
  ControlledNetwork.evolve_loop fuel x t ct n g k first <> Raised.
Proof.
  induction fuel as [|fuel IH]; intros n g k first W Hx Hct Ht Hf; [discriminate|].
  rewrite evolve_loop_step.
  destruct (loop_body_shapes n width x ct g W Hx Hct)
    as (o & n2 & g2 & B & W2 & Lo & _ & Lc & _).
  rewrite B. cbv zeta.
  destruct (within_precision_defined n2 o t) as [b Eb]; [congruence|].
  rewrite Eb.
  assert (F : (if (S k =? 1)%nat then Some o else first) <> None).
  { destruct Hf as [-> | Hf]; [discriminate|]. destruct (S k =? 1)%nat; [discriminate | exact Hf]. }
  destruct b.
  - destruct (if (S k =? 1)%nat then Some o else first); [discriminate | contradiction].
  - apply IH; try assumption; try congruence. right. exact F.
Qed.

(** X13. On a well-shaped network, with an input of the first width and
    targets of the controller's dimension, [evolve_to_convergence] raises
    nothing, whatever the mode and however long it runs: in particular
    [first_output] is always bound when the loop is left. *)
Theorem evolve_never_raises net width x t ct g fuel :
  wf_net net width -> length x = width ->
  length ct = length (ControlledNetwork.c net) ->
  length t = length (ControlledNetwork.c net) ->
  ControlledNetwork.evolve_to_convergence fuel net x t ct g <> Raised.
Proof.
  intros W Hx Hct Ht. unfold ControlledNetwork.evolve_to_convergence.
  assert (L0 : length (ControlledNetwork.c (ControlledNetwork.reset net))
               = length (ControlledNetwork.c net)) by (simpl; apply length_map).
  apply (evolve_loop_never_raises width); rewrite ?L0; try assumption.
  - now apply reset_wf_net.
  - left; reflexivity.
Qed.

Lemma wf_net_ex_net : wf_net ex_net 1.
Proof.
  split; [|reflexivity]. simpl.
  split; [repeat split|]. split; [reflexivity|]. split; [reflexivity|].
  split; [apply plastic_ok_off; reflexivity | exact I].
Qed.

Lemma evolve_never_raises_witness :
  ControlledNetwork.evolve_to_convergence 50 ex_net [1 / 10] [0] [1] g_half <> Raised.
Proof.
  exact (evolve_never_raises ex_net 1 [1 / 10] [0] [1] g_half 50
           wf_net_ex_net eq_refl eq_refl eq_refl).
Defined.

Lemma passes_controller k width x ct :
  forall n g os n' g',
  wf_net n width -> length x = width -> length ct = length (ControlledNetwork.c n) ->
  passes k x ct (n, g) = Some (os, (n', g')) ->
  ControlledNetwork.c n' =
    integrate_errors (ControlledNetwork.controller_rate n) ct os (ControlledNetwork.c n) /\
  Forall (fun o => length o = length (ControlledNetwork.c n)) os.
Proof.
  induction k as [|k IH]; intros n g os n' g' W Hx Hct; simpl.
  - intros H; inversion H; subst. split; [reflexivity | constructor].
  - destruct (loop_body_shapes n width x ct g W Hx Hct)
      as (o & n2 & g2 & B & W2 & Lo & Hc & Lc & Hr & _).
    rewrite B.
    destruct (passes k x ct (n2, g2)) as [[os1 s2]|] eqn:P; [|discriminate].
    intros H; injection H as <- ->.
    apply (IH n2 g2 os1 n' g' W2 Hx) in P as [P1 P2]; [|congruence].
    split.
    + rewrite P1, Hr, Hc. reflexivity.
    + constructor; [exact Lo|]. rewrite Lc in P2. exact P2.
Qed.

(** X14. When [evolve_to_convergence] returns on well-shaped inputs, the
    controller it leaves is the sum, started from zero, of
    [controller_rate (control_target - output)] over the outputs of all the
    passes made, in order; the update is made before the stopping test, so a
    run that meets the target at its first pass has still moved the
    controller once. *)
Theorem evolve_controller_is_error_integral net width x t ct g fuel first k net' g' :
  wf_net net width -> length x = width ->
  length ct = length (ControlledNetwork.c net) ->
  ControlledNetwork.evolve_to_convergence fuel net x t ct g = Returned (first, k, net', g') ->
  exists os,
    passes k x ct (ControlledNetwork.reset net, g) = Some (os, (net', g')) /\
    length os = k /\ hd_error os = Some first /\
    ControlledNetwork.c net' =
      integrate_errors (ControlledNetwork.controller_rate net) ct os
        (zeros (length (ControlledNetwork.c net))) /\
    (k = 1%nat ->
     ControlledNetwork.c net' =
       vadd (zeros (length (ControlledNetwork.c net)))
            (smul (ControlledNetwork.controller_rate net) (vsub ct first))).
Proof.
  intros W Hx Hct H. unfold ControlledNetwork.evolve_to_convergence in H.
  apply evolve_loop_returned in H as (j & os & -> & Hj & Hp & _ & Hf & _).
  specialize (Hf eq_refl). simpl.
  assert (L0 : length (ControlledNetwork.c (ControlledNetwork.reset net))
               = length (ControlledNetwork.c net)) by (simpl; apply length_map).
  assert (Z : ControlledNetwork.c (ControlledNetwork.reset net)
              = zeros (length (ControlledNetwork.c net))).
  { simpl. apply map_zero_as_zeros. }
  pose proof (passes_controller j width x ct _ g os net' g' (reset_wf_net _ _ W) Hx
                ltac:(congruence) Hp) as [Hc _].
  rewrite Z in Hc. simpl in Hc.
  exists os. split; [exact Hp|]. split; [eapply passes_length; eauto|].
  split; [exact Hf|]. split; [exact Hc|].
  intros ->. apply passes_length in Hp as L.
  destruct os as [|o [|o2 os]]; simpl in L; try discriminate.
  simpl in Hf. injection Hf as ->. exact Hc.
Qed.

Lemma evolve_controller_is_error_integral_witness :
  exists net',
    ControlledNetwork.evolve_to_convergence 2 ex_net [9 / 20] [1] [1] g_half
    = Returned ([0], 2%nat, net', g_half) /\
    exists os,
      passes 2 [9 / 20] [1] (ControlledNetwork.reset ex_net, g_half)
      = Some (os, (net', g_half)) /\
      ControlledNetwork.c net' = integrate_errors (1 / 10) [1] os (zeros 1).
Proof.
  destruct ex_net_run as [net' H]. exists net'. split; [exact H|].
  destruct (evolve_controller_is_error_integral ex_net 1 [9 / 20] [1] [1] g_half 2 _ _ _ _
              wf_net_ex_net eq_refl eq_refl H) as (os & P & _ & _ & C & _).
  exists os. split; [exact P | exact C].
Defined.

Lemma vadd_zero_error (c ct out : tensor1) r :
  length ct = length out -> length c = length out ->
  (r = 0 \/ out = ct) ->
  vadd c (smul r (vsub ct out)) = c.
Proof.
  unfold vadd, smul, vsub. intros L1 L2 H.
  revert ct out L1 L2 H. induction c as [|y c IH]; intros [|a ct] [|b out] L1 L2 H;
    simpl in *; try discriminate; [reflexivity|].
  f_equal.
  - destruct H as [-> | H]; [lra|]. injection H as -> _. lra.
  - apply IH; try congruence. destruct H as [H | H]; [auto|]. right. congruence.
Qed.

Lemma set_c_same n : ControlledNetwork.set_c n (ControlledNetwork.c n) = n.
Proof. destruct n; reflexivity. Qed.

(** X15. The controller has two ways of standing still: with a controller
    rate of 0, or when the current output equals the control target,
    [evolve_controller] leaves the network exactly as it was (for a target and
    an output of the controller's dimension). *)
Theorem controller_stands_still n out ct :
  length ct = length out -> length (ControlledNetwork.c n) = length out ->
  ControlledNetwork.controller_rate n = 0 \/ out = ct ->
  ControlledNetwork.evolve_controller n out ct = Some n.
Proof.
  intros L1 L2 H. rewrite evolve_controller_same_shape by assumption.
  rewrite vadd_zero_error by assumption. now rewrite set_c_same.
Qed.

Lemma controller_stands_still_witness :
  ControlledNetwork.evolve_controller ex_net_used [1] [1] = Some ex_net_used.
Proof.
  exact (controller_stands_still ex_net_used [1] [1] eq_refl eq_refl (or_intror eq_refl)).
Defined.

(** ** Further properties: the stopping test on spikes *)

Lemma binary_abs_diff (o t : tensor1) :
  binary o -> binary t -> length t = length o ->
  (o = t /\ rsum (map Rabs (map2 Rminus o t)) = 0) \/
  (o <> t /\ 1 <= rsum (map Rabs (map2 Rminus o t))).
Proof.
  intros Bo. revert t. induction Bo as [|y o Hy Bo IH]; intros [|z t] Bt L;
    simpl in *; try discriminate.
  - left. auto.
  - inversion Bt as [|? ? Hz Bt']; subst.
    assert (N : 0 <= rsum (map Rabs (map2 Rminus o t))).
    { clear. generalize (map2 Rminus o t) as d. induction d; simpl; [lra|].
      pose proof (Rabs_pos a). lra. }
    destruct (IH t Bt' ltac:(congruence)) as [[E0 E] | [Ne E]];
      set (s := rsum (map Rabs (map2 Rminus o t))) in *.
    + subst t. destruct Hy as [-> | ->], Hz as [-> | ->].
      * left. split; [reflexivity | r_case].
      * right. split; [intros H; injection H; lra | r_case].
      * right. split; [intros H; injection H; lra | r_case].
      * left. split; [reflexivity | r_case].
    + right. split; [intros H; injection H as _ H; contradiction|].
      pose proof (Rabs_pos (y - z)). lra.
Qed.

(** X16. On 0/1 vectors the stopping test is an exact comparison as soon as
    the precision is below one over the width: for a non-empty 0/1 output and
    a 0/1 target of the same length [n], with [0 <= precision < 1/n], the
    test holds if and only if the output equals the target. *)
Theorem within_precision_exact_on_spikes n o t :
  binary o -> binary t -> length t = length o -> o <> [] ->
  0 <= ControlledNetwork.ctr_precision n ->
  ControlledNetwork.ctr_precision n * INR (length o) < 1 ->
  (ControlledNetwork.within_precision n o t = Some true <-> o = t).
Proof.
  intros Bo Bt L Ne P0 P1. unfold ControlledNetwork.within_precision.
  rewrite broadcast2_same by congruence.
  assert (Ld : length (map2 Rminus o t) = length o) by (rewrite map2_length; lia).
  assert (Lpos : 0 < INR (length o)).
  { apply lt_0_INR. destruct o; [contradiction | simpl; lia]. }
  unfold abs_mean. destruct (map2 Rminus o t) as [|d ds] eqn:D.
  { destruct o; [contradiction | discriminate]. }
  rewrite <- D in *. rewrite Ld.
  set (p := ControlledNetwork.ctr_precision n) in *.
  set (s := rsum _).
  destruct (binary_abs_diff o t Bo Bt L) as [[E Hs] | [E Hs]]; fold s in Hs.
  - split; [intros _; exact E | intros _].
    f_equal. apply Rleb_true.
    replace (s / INR (length o)) with 0; [exact P0 | rewrite Hs; unfold Rdiv; ring].
  - split; [|intros; contradiction]. intros H. injection H as H.
    assert (F : Rleb (s / INR (length o)) p = false).
    { apply Rleb_false. apply Rmult_lt_reg_r with (INR (length o)); [exact Lpos|].
      unfold Rdiv. rewrite Rmult_assoc, Rinv_l by lra. lra. }
    congruence.
Qed.

Lemma binary_one_zero : binary [1; 0].
Proof. constructor; [right; reflexivity | constructor; [left; reflexivity | constructor]]. Qed.

Lemma within_precision_exact_on_spikes_witness :
  ControlledNetwork.within_precision ex_net [1; 0] [1; 0] = Some true.
Proof.
  apply (within_precision_exact_on_spikes ex_net [1; 0] [1; 0]).
  - exact binary_one_zero.
  - exact binary_one_zero.
  - reflexivity.
  - discriminate.
  - simpl. lra.
  - simpl. lra.
  - reflexivity.
Defined.

(** ** Further properties: shapes of traces and gradient *)

Lemma rows_of_map2 (f : R -> R -> R) w (A B : tensor2) :
  rows_of w A -> rows_of w B -> rows_of w (map2 (map2 f) A B).
Proof.
  unfold rows_of. intros HA. revert B. induction HA as [|a A Ha HA IH]; intros [|b B] HB;
    simpl; try constructor.
  - inversion HB; subst. rewrite map2_length. lia.
  - inversion HB; subst. now apply IH.
Qed.

Lemma rows_of_outer a b : length (outer a b) = length a /\ rows_of (length b) (outer a b).
Proof.
  unfold outer, rows_of. split; [apply length_map|].
  apply Forall_forall. intros row H. apply in_map_iff in H as (x & <- & _). apply length_map.
Qed.

Lemma rows_of_transpose n (m : tensor2) :
  length (transpose n m) = n /\ rows_of (length m) (transpose n m).
Proof.
  unfold transpose, rows_of. split; [now rewrite length_map, length_seq|].
  apply Forall_forall. intros row H. apply in_map_iff in H as (j & <- & _). apply length_map.
Qed.

Lemma rows_of_mneg w m : rows_of w m -> length (mneg m) = length m /\ rows_of w (mneg m).
Proof.
  unfold mneg, rows_of. intros H. split; [apply length_map|].
  apply Forall_forall. intros row Hr. apply in_map_iff in Hr as (r0 & <- & Hin).
  rewrite length_map. eapply Forall_forall in H; eauto.
Qed.

Lemma rows_of_zeros_like w m :
  rows_of w m -> length (zeros_like2 m) = length m /\ rows_of w (zeros_like2 m).
Proof.
  unfold zeros_like2, rows_of. intros H. split; [apply length_map|].
  apply Forall_forall. intros row Hr. apply in_map_iff in Hr as (r0 & <- & Hin).
  rewrite length_map. eapply Forall_forall in H; eauto.
Qed.

Lemma spikify_length r g : length (fst (spikify r g)) = length r.
Proof.
  unfold spikify, rand_like. simpl. rewrite map2_length, length_map, length_seq. lia.
Qed.

Lemma spike_indicators_lengths l inputs out g pre post g' :
  ControlledLayer.spike_indicators l inputs out g = (pre, post, g') ->
  length pre = length inputs /\ length post = length out.
Proof.
  unfold ControlledLayer.spike_indicators. destruct (ControlledLayer.mode l).
  - intros H; injection H as <- <- _. auto.
  - pose proof (spikify_length inputs g) as L1.
    destruct (spikify inputs g) as [isp g1].
    pose proof (spikify_length out g1) as L2.
    destruct (spikify out g1) as [osp g2].
    intros H; injection H as <- <- _. auto.
Qed.

(** The shape of what a plastic call subtracts from the buffer. *)
Lemma stdp_update_shape pre post apre apost n_in n_out :
  length pre = n_in -> length apre = n_in ->
  length post = n_out -> length apost = n_out ->
  length (ControlledLayer.stdp_update pre post apre apost) = n_out /\
  rows_of n_in (ControlledLayer.stdp_update pre post apre apost).
Proof.
  intros L1 L2 L3 L4. unfold ControlledLayer.stdp_update, madd.
  destruct (rows_of_outer pre apost) as [O1 O2].
  destruct (rows_of_transpose (length apost) (outer pre apost)) as [T1 T2].
  rewrite O1, L1 in T2.
  destruct (rows_of_mneg _ _ T2) as [N1 N2].
  destruct (rows_of_outer post apre) as [P1 P2]. rewrite L2 in P2.
  split.
  - rewrite map2_length. unfold tensor1, tensor2 in *. rewrite N1, T1, P1. lia.
  - apply rows_of_map2; assumption.
Qed.

(** X17. [forward] keeps the full shape invariant of a layer: after a
    successful call the potential, the traces and the gradient buffer still
    have the shapes that go with the weights, the output has [fan_out]
    entries, and with plasticity on the gradient buffer exists and has
    exactly the shape of the feed-forward weight. *)
Theorem forward_keeps_shapes l inputs c g out l' g' :
  shaped l ->
  ControlledLayer.forward l inputs c g = Some (out, l', g') ->
  shaped l' /\
  length out = ControlledLayer.fan_out l /\
  (truthy (ControlledLayer.stdp_decay l) = true ->
   exists gr, ControlledLayer.grad l' = Some gr /\
              length gr = length (weight (ControlledLayer.ff l')) /\
              rows_of (in_features (ControlledLayer.ff l')) gr).
Proof.
  intros (W & RW & SA & SB & SG) H.
  pose proof (forward_wf _ _ _ _ _ _ _ W H) as (W' & _ & Lo & _).
  pose proof (forward_frame _ _ _ _ _ _ _ H) as (_ & _ & F3 & F4 & F5 & _ & _ & _).
  pose proof (forward_inv _ _ _ _ _ _ _ H) as (Lx & _ & _ & _).
  pose proof (forward_cases _ _ _ _ _ _ _ H) as Hc. cbv zeta in Hc.
  match type of Hc with context [ControlledLayer.dynamics ?x] =>
    pose proof (dynamics_frame x) as (_ & _ & _ & D4 & _ & _ & _ & D8 & D9) end.
  cbv zeta in *. simpl in D4, D8, D9.
  destruct Hc as [(T & -> & _) | (T & a0 & b0 & pre & post & Ha & Hb & S & ->)].
  - split; [|split; [exact Lo | intros T'; congruence]].
    unfold shaped, ControlledLayer.grad. rewrite D4, D8, D9, F3.
    split; [exact W'|]. split; [exact RW|]. split; [exact SA|]. split; [exact SB | exact SG].
  - apply spike_indicators_lengths in S as [Lp Lq].
    set (d := as_num (ControlledLayer.stdp_decay l)) in *.
    assert (La : length (vadd (smul d a0) pre) = in_features (ControlledLayer.ff l)).
    { rewrite vadd_length, smul_length, (SA _ Ha), Lp, Lx. lia. }
    assert (Lb : length (vadd (smul d b0) post) = ControlledLayer.fan_out l).
    { rewrite vadd_length, smul_length, (SB _ Hb), Lq, Lo. lia. }
    destruct (stdp_update_shape pre post (vadd (smul d a0) pre) (vadd (smul d b0) post)
                (in_features (ControlledLayer.ff l)) (ControlledLayer.fan_out l))
      as [U1 U2]; try congruence.
    assert (G0 : length (grad_or_zeros (ControlledLayer.ff l)) = ControlledLayer.fan_out l /\
                 rows_of (in_features (ControlledLayer.ff l))
                         (grad_or_zeros (ControlledLayer.ff l))).
    { unfold grad_or_zeros.
      destruct (weight_grad (ControlledLayer.ff l)) as [gr|] eqn:E.
      - apply SG. exact E.
      - destruct (rows_of_zeros_like _ _ RW) as [Z1 Z2]. split; [|exact Z2].
        rewrite Z1. apply W. }
    destruct G0 as [G1 G2].
    assert (GS : length (msub (grad_or_zeros (ControlledLayer.ff l))
                           (ControlledLayer.stdp_update pre post (vadd (smul d a0) pre)
                              (vadd (smul d b0) post))) = ControlledLayer.fan_out l /\
                 rows_of (in_features (ControlledLayer.ff l))
                   (msub (grad_or_zeros (ControlledLayer.ff l))
                      (ControlledLayer.stdp_update pre post (vadd (smul d a0) pre)
                         (vadd (smul d b0) post)))).
    { split; [|apply rows_of_map2; assumption].
      unfold msub. rewrite map2_length. unfold tensor1, tensor2 in *.
      rewrite G1, U1. apply Nat.min_id. }
    destruct GS as [GS1 GS2].
    simpl in F3, F4, F5 |- *.
    split; [|split; [exact Lo|]].
    + unfold shaped, ControlledLayer.grad, ControlledLayer.wf in *. simpl in *.
      rewrite D4 in *. simpl.
      split; [exact W'|]. split; [exact RW|].
      split; [intros ? E; injection E as <-; exact La|].
      split; [intros ? E; injection E as <-; rewrite F3 in *; exact Lb|].
      intros ? E; injection E as <-. rewrite F3 in *. split; assumption.
    + intros _. eexists. split; [reflexivity|]. rewrite D4. simpl.
      split; [|exact GS2]. rewrite GS1. symmetry. apply W.
Qed.

(** The constructor establishes the full shape invariant. *)
Lemma init_shaped fan_in fan_out cdim m lk tau w l :
  ControlledLayer.init fan_in fan_out cdim m lk tau w = Some l -> shaped l.
Proof.
  intros H. pose proof (layer_init_shapes _ _ _ _ _ _ _ _ H) as (W & _).
  unfold ControlledLayer.init in H.
  destruct (ControlledLayer.parse_mode m); [|discriminate].
  injection H as <-. unfold shaped, ControlledLayer.grad. simpl.
  split; [exact W|]. split; [|split; [|split]].
  - unfold rows_of, init_weight. apply Forall_forall. intros row Hr.
    apply in_map_iff in Hr as (i & <- & _). now rewrite length_map, length_seq.
  - intros a.
    match goal with |- (if ?b then _ else _) = _ -> _ => destruct b end; [|discriminate].
    intros E; injection E as <-. apply zeros_length.
  - intros b.
    match goal with |- (if ?b then _ else _) = _ -> _ => destruct b end; [|discriminate].
    intros E; injection E as <-. apply zeros_length.
  - discriminate.
Qed.

Lemma forward_keeps_shapes_witness :
  exists out l' g',
    ControlledLayer.forward ex_plastic [1] [0] g_half = Some (out, l', g') /\
    shaped l' /\
    exists gr, ControlledLayer.grad l' = Some gr /\ length gr = 1%nat /\ rows_of 1 gr.
Proof.
  assert (T : truthy (ControlledLayer.stdp_decay ex_plastic) = true)
    by (apply truthy_nonzero; lra).
  destruct (forward_defined ex_plastic [1] [0] g_half) as (out & l' & g' & E);
    [reflexivity | reflexivity | intros _; split; discriminate |].
  exists out, l', g'. split; [exact E|].
  destruct (forward_keeps_shapes ex_plastic [1] [0] g_half out l' g'
              (init_shaped _ _ _ _ _ _ _ _ ex_plastic_init) E) as (S & _ & G).
  split; [exact S|].
  destruct (G T) as (gr & G1 & G2 & G3).
  pose proof (forward_frame _ _ _ _ _ _ _ E) as (_ & _ & _ & F4 & F5 & _).
  exists gr. rewrite F5 in G2. rewrite F4 in G3. auto.
Defined.

(** ** Further properties: the plasticity rule per synapse *)

Lemma entry_map2 (f : R -> R -> R) (A B : tensor2) i j :
  (i < length A)%nat -> (i < length B)%nat ->
  (j < length (nth i A []))%nat -> (j < length (nth i B []))%nat ->
  entry (map2 (map2 f) A B) i j = f (entry A i j) (entry B i j).
Proof.
  intros HA HB Ha Hb. unfold entry.
  rewrite (nth_map2 (map2 f) A B i [] [] []) by assumption.
  now rewrite (nth_map2 f _ _ j 0 0 0).
Qed.

Lemma entry_mneg (A : tensor2) i j :
  (i < length A)%nat -> (j < length (nth i A []))%nat ->
  entry (mneg A) i j = - entry A i j.
Proof.
  intros HA Ha. unfold entry, mneg.
  rewrite (nth_map_lt (map Ropp) A i [] []) by assumption.
  now rewrite (nth_map_lt Ropp _ j 0 0).
Qed.

Lemma entry_outer a b i j :
  (i < length a)%nat -> (j < length b)%nat ->
  entry (outer a b) i j = nth i a 0 * nth j b 0.
Proof.
  intros Ha Hb. unfold entry, outer.
  rewrite (nth_map_lt (fun x => map (Rmult x) b) a i 0 []) by assumption.
  now rewrite (nth_map_lt (Rmult (nth i a 0)) b j 0 0).
Qed.

Lemma entry_transpose_outer a b i j :
  (i < length b)%nat -> (j < length a)%nat ->
  entry (transpose (length b) (outer a b)) i j = nth j a 0 * nth i b 0.
Proof.
  intros Hb Ha. rewrite transpose_outer. unfold entry.
  rewrite (nth_map_lt (fun y => map (fun x => x * y) a) b i 0 []) by assumption.
  now rewrite (nth_map_lt (fun x => x * nth i b 0) a j 0 0).
Qed.

Lemma rows_of_nth w (A : tensor2) i :
  rows_of w A -> (i < length A)%nat -> length (nth i A []) = w.
Proof.
  intros H Hi. unfold rows_of in H. rewrite Forall_forall in H. apply H. now apply nth_In.
Qed.

Lemma entry_zeros_like (A : tensor2) i j : entry (zeros_like2 A) i j = 0.
Proof.
  unfold entry, zeros_like2.
  destruct (Nat.lt_ge_cases i (length A)) as [Hi|Hi].
  - rewrite (nth_map_lt (map (fun _ => 0)) A i [] []) by assumption.
    destruct (Nat.lt_ge_cases j (length (nth i A []))) as [Hj|Hj].
    + now rewrite (nth_map_lt (fun _ : R => 0) _ j 0 0).
    + apply nth_overflow. now rewrite length_map.
  - rewrite (nth_overflow _ []) by now rewrite length_map.
    destruct j; reflexivity.
Qed.

(** The contribution of one plastic call at synapse [(i, j)]. *)
Lemma entry_stdp_contribution pre post apre apost i j :
  length apre = length pre -> length apost = length post ->
  (i < length post)%nat -> (j < length pre)%nat ->
  entry (stdp_contribution pre post apre apost) i j
  = nth j pre 0 * nth i apost 0 - nth i post 0 * nth j apre 0.
Proof.
  intros La Lb Hi Hj. unfold stdp_contribution.
  destruct (rows_of_outer post apre) as [O1 O2].
  destruct (rows_of_transpose (length apost) (outer pre apost)) as [T1 T2].
  destruct (rows_of_outer pre apost) as [Q1 _]. unfold tensor1, tensor2 in *.
  rewrite Q1 in T2.
  assert (R1 : length (nth i (outer post apre) []) = length apre)
    by (apply rows_of_nth; [exact O2 | rewrite O1; exact Hi]).
  assert (R2 : length (nth i (transpose (length apost) (outer pre apost)) []) = length pre)
    by (apply rows_of_nth; [exact T2 | rewrite T1, Lb; exact Hi]).
  assert (M1 : (i < length (msub (outer post apre)
                              (transpose (length apost) (outer pre apost))))%nat).
  { unfold msub. rewrite map2_length. unfold tensor1, tensor2 in *. rewrite O1, T1, Lb. lia. }
  assert (M2 : (j < length (nth i (msub (outer post apre)
                                     (transpose (length apost) (outer pre apost))) []))%nat).
  { unfold msub. rewrite (nth_map2 vsub _ _ i [] [] []);
      [| unfold tensor1, tensor2 in *; rewrite O1; exact Hi
       | unfold tensor1, tensor2 in *; rewrite T1, Lb; exact Hi].
    rewrite vsub_length. unfold tensor1, tensor2 in *. rewrite R1, R2, La. lia. }
  rewrite entry_mneg by assumption.
  unfold msub, vsub. rewrite entry_map2;
    [| unfold tensor1, tensor2 in *; rewrite O1; exact Hi
     | unfold tensor1, tensor2 in *; rewrite T1, Lb; exact Hi
     | unfold tensor1, tensor2 in *; rewrite R1, La; exact Hj
     | unfold tensor1, tensor2 in *; rewrite R2; exact Hj].
  rewrite entry_outer by (rewrite ?La; assumption).
  rewrite entry_transpose_outer by (rewrite ?Lb; assumption).
  lra.
Qed.

Lemma stdp_contribution_shape pre post apre apost n_in n_out :
  length pre = n_in -> length apre = n_in ->
  length post = n_out -> length apost = n_out ->
  length (stdp_contribution pre post apre apost) = n_out /\
  rows_of n_in (stdp_contribution pre post apre apost).
Proof.
  intros L1 L2 L3 L4. unfold stdp_contribution.
  destruct (rows_of_outer pre apost) as [O1 O2].
  destruct (rows_of_transpose (length apost) (outer pre apost)) as [T1 T2].
  destruct (rows_of_outer post apre) as [P1 P2].
  unfold tensor1, tensor2 in *. rewrite O1, L1 in T2. rewrite L2 in P2.
  assert (M : rows_of n_in (msub (outer post apre)
                              (transpose (length apost) (outer pre apost))))
    by (apply rows_of_map2; assumption).
  destruct (rows_of_mneg _ _ M) as [N1 N2]. split; [|exact N2].
  unfold tensor1, tensor2 in *. rewrite N1. unfold msub. rewrite map2_length.
  unfold tensor1, tensor2 in *. rewrite P1, T1. lia.
Qed.

(** X18. The plasticity rule synapse by synapse: with plasticity on, a call
    changes entry [(i, j)] of the gradient buffer (0 where the buffer did not
    exist yet) by [pre_j Apost'_i - post_i Apre'_j], where [pre] and [post]
    are the spike indicators of the call and [Apre'], [Apost'] the traces the
    call leaves. *)
Theorem stdp_rule_per_synapse l inputs c g out l' g' i j :
  shaped l ->
  truthy (ControlledLayer.stdp_decay l) = true ->
  ControlledLayer.forward l inputs c g = Some (out, l', g') ->
  (i < ControlledLayer.fan_out l)%nat ->
  (j < in_features (ControlledLayer.ff l))%nat ->
  exists pre post apre apost gr,
    ControlledLayer.spike_indicators l inputs out g = (pre, post, g') /\
    ControlledLayer.Apre l' = Some apre /\
    ControlledLayer.Apost l' = Some apost /\
    ControlledLayer.grad l' = Some gr /\
    entry gr i j =
      match ControlledLayer.grad l with Some g0 => entry g0 i j | None => 0 end
      + (nth j pre 0 * nth i apost 0 - nth i post 0 * nth j apre 0).
Proof.
  intros (W & RW & SA & SB & SG) T H Hi Hj.
  pose proof (forward_wf _ _ _ _ _ _ _ W H) as (_ & _ & Lo & _).
  pose proof (forward_inv _ _ _ _ _ _ _ H) as (Lx & _ & _ & _).
  destruct (forward_plastic _ _ _ _ _ _ _ H T)
    as (a0 & b0 & pre & post & Ha & Hb & S & Ha' & Hb' & G).
  cbv zeta in *.
  set (d := as_num (ControlledLayer.stdp_decay l)) in *.
  set (apre := vadd (smul d a0) pre) in *.
  set (apost := vadd (smul d b0) post) in *.
  pose proof (spike_indicators_lengths _ _ _ _ _ _ _ S) as [Lp Lq].
  assert (La : length apre = length pre).
  { subst apre. rewrite vadd_length, smul_length, (SA _ Ha), Lp, Lx. lia. }
  assert (Lb : length apost = length post).
  { subst apost. rewrite vadd_length, smul_length, (SB _ Hb), Lq, Lo. lia. }
  exists pre, post, apre, apost. eexists.
  split; [exact S|]. split; [exact Ha'|]. split; [exact Hb'|].
  split; [exact G|].
  destruct (stdp_contribution_shape pre post apre apost
              (in_features (ControlledLayer.ff l)) (ControlledLayer.fan_out l))
    as [K1 K2]; try congruence.
  assert (G0 : length (grad_or_zeros (ControlledLayer.ff l)) = ControlledLayer.fan_out l /\
               rows_of (in_features (ControlledLayer.ff l))
                       (grad_or_zeros (ControlledLayer.ff l))).
  { unfold grad_or_zeros.
    destruct (weight_grad (ControlledLayer.ff l)) as [gr|] eqn:E.
    - apply SG. exact E.
    - destruct (rows_of_zeros_like _ _ RW) as [Z1 Z2]. split; [|exact Z2].
      unfold tensor1, tensor2 in *. rewrite Z1. apply W. }
  destruct G0 as [G1 G2].
  unfold madd, vadd. rewrite entry_map2.
  - rewrite entry_stdp_contribution by congruence.
    f_equal. unfold grad_or_zeros, ControlledLayer.grad.
    destruct (weight_grad (ControlledLayer.ff l)); [reflexivity | apply entry_zeros_like].
  - unfold tensor1, tensor2 in *. rewrite G1. exact Hi.
  - unfold tensor1, tensor2 in *. rewrite K1. exact Hi.
  - rewrite (rows_of_nth _ _ i G2); [exact Hj|].
    unfold tensor1, tensor2 in *. rewrite G1. exact Hi.
  - rewrite (rows_of_nth _ _ i K2); [exact Hj|].
    unfold tensor1, tensor2 in *. rewrite K1. exact Hi.
Qed.

Lemma stdp_rule_per_synapse_witness :
  exists out l' g' pre post apre apost gr,
    ControlledLayer.forward ex_plastic [1] [0] g_half = Some (out, l', g') /\
    ControlledLayer.spike_indicators ex_plastic [1] out g_half = (pre, post, g') /\
    ControlledLayer.Apre l' = Some apre /\ ControlledLayer.Apost l' = Some apost /\
    ControlledLayer.grad l' = Some gr /\
    entry gr 0 0 = 0 + (nth 0 pre 0 * nth 0 apost 0 - nth 0 post 0 * nth 0 apre 0).
Proof.
  assert (T : truthy (ControlledLayer.stdp_decay ex_plastic) = true)
    by (apply truthy_nonzero; lra).
  destruct (forward_defined ex_plastic [1] [0] g_half) as (out & l' & g' & E);
    [reflexivity | reflexivity | intros _; split; discriminate |].
  destruct (stdp_rule_per_synapse ex_plastic [1] [0] g_half out l' g' 0 0
              (init_shaped _ _ _ _ _ _ _ _ ex_plastic_init) T E (le_n 1) (le_n 1))
    as (pre & post & apre & apost & gr & H).
  exists out, l', g', pre, post, apre, apost, gr. split; [exact E | exact H].
Defined.

(** ** Further properties: bounded traces *)

Lemma indicators_binary_aux l inputs c g out l' g' pre post g2 :
  ControlledLayer.forward l inputs c g = Some (out, l', g') ->
  ControlledLayer.spike_indicators l inputs out g = (pre, post, g2) ->
  binary post /\ (ControlledLayer.mode l = rate \/ binary inputs -> binary pre).
Proof.
  intros H S. apply forward_inv in H as (_ & _ & Hout & _). cbv zeta in Hout.
  unfold ControlledLayer.spike_indicators in S.
  destruct (ControlledLayer.mode l) eqn:Hm.
  - injection S as <- <- <-. split.
    + rewrite Hout. apply spiking_output_binary. exact Hm.
    + intros [N | B]; [discriminate | exact B].
  - pose proof (spikify_binary inputs g) as B1.
    destruct (spikify inputs g) as [isp g1].
    pose proof (spikify_binary out g1) as B2.
    destruct (spikify out g1) as [osp g3].
    injection S as <- <- <-. simpl in *. auto.
Qed.

Lemma trace_step_bounded d B (a s : tensor1) :
  0 <= d -> d * B + 1 <= B ->
  Forall (fun y => 0 <= y <= B) a -> binary s ->
  Forall (fun y => 0 <= y <= B) (vadd (smul d a) s).
Proof.
  intros Hd HB Fa. revert s. unfold vadd, smul.
  induction Fa as [|y a Hy Fa IH]; intros [|z s] Bs; simpl; constructor.
  - inversion Bs as [|? ? Hz _]; subst. destruct Hz as [-> | ->]; nra.
  - inversion Bs; subst. now apply IH.
Qed.

(** X19. With a plasticity time constant [tau > 1] the traces stay between 0
    and [tau]: if the post-synaptic trace lies in that range before a call it
    does after it, and so does the pre-synaptic trace in rate mode, or in
    spiking mode when the input is a 0/1 vector. *)
Theorem traces_bounded_by_tau l tau inputs c g out l' g' a b :
  1 < tau ->
  ControlledLayer.stdp_decay l = PyNum (1 - 1 / tau) ->
  ControlledLayer.Apre l = Some a -> ControlledLayer.Apost l = Some b ->
  Forall (fun y => 0 <= y <= tau) b ->
  ControlledLayer.forward l inputs c g = Some (out, l', g') ->
  exists a' b',
    ControlledLayer.Apre l' = Some a' /\ ControlledLayer.Apost l' = Some b' /\
    Forall (fun y => 0 <= y <= tau) b' /\
    (Forall (fun y => 0 <= y <= tau) a ->
     ControlledLayer.mode l = rate \/ binary inputs ->
     Forall (fun y => 0 <= y <= tau) a').
Proof.
  intros Ht Hd Ha Hb Fb H.
  assert (Pd : 0 < 1 - 1 / tau < 1).
  { assert (0 < / tau < 1).
    { split; [apply Rinv_0_lt_compat; lra|].
      rewrite <- Rinv_1. apply Rinv_lt_contravar; lra. }
    unfold Rdiv. lra. }
  assert (HB : (1 - 1 / tau) * tau + 1 <= tau).
  { assert (E : (1 - 1 / tau) * tau = tau - 1) by (field; lra). rewrite E. lra. }
  assert (T : truthy (ControlledLayer.stdp_decay l) = true)
    by (rewrite Hd; apply truthy_nonzero; lra).
  destruct (forward_plastic _ _ _ _ _ _ _ H T)
    as (a0 & b0 & pre & post & Ha0 & Hb0 & S & Ha' & Hb' & _).
  rewrite Ha in Ha0. rewrite Hb in Hb0. injection Ha0 as <-. injection Hb0 as <-.
  cbv zeta in *. rewrite Hd in Ha', Hb'. simpl as_num in Ha', Hb'.
  destruct (indicators_binary_aux _ _ _ _ _ _ _ _ _ _ H S) as [Bq Bp].
  eexists _, _. split; [exact Ha'|]. split; [exact Hb'|]. split.
  - apply trace_step_bounded; try assumption; lra.
  - intros Fa M. apply trace_step_bounded; try assumption; try lra. now apply Bp.
Qed.

Lemma traces_bounded_by_tau_witness :
  exists out l' g' b',
    ControlledLayer.forward ex_plastic [1] [0] g_half = Some (out, l', g') /\
    ControlledLayer.Apost l' = Some b' /\ Forall (fun y => 0 <= y <= 2) b'.
Proof.
  destruct (forward_defined ex_plastic [1] [0] g_half) as (out & l' & g' & E);
    [reflexivity | reflexivity | intros _; split; discriminate |].
  assert (F : Forall (fun y => 0 <= y <= 2) [0]) by (repeat constructor; lra).
  destruct (traces_bounded_by_tau ex_plastic 2 [1] [0] g_half out l' g' [0] [0]
              ltac:(lra) eq_refl eq_refl eq_refl F E) as (a' & b' & _ & Hb & Fb & _).
  exists out, l', g', b'. auto.
Defined.

(** ** Further properties: the network step and the network without layers *)

(** X20. A step of a well-shaped network with at least one layer raises
    exactly when the input does not have the first width or the controller
    vector does not have the controller dimension; when it returns, the
    output has the last width and the shapes are kept. *)
Theorem network_forward_raises_iff n width x c g :
  chain_ok (ControlledNetwork.layers n) width (length (ControlledNetwork.c n)) ->
  ControlledNetwork.layers n <> [] ->
  (ControlledNetwork.forward n x c g = None <->
   length x <> width \/ length c <> length (ControlledNetwork.c n)) /\
  (forall out n' g',
     ControlledNetwork.forward n x c g = Some (out, n', g') ->
     length out = out_width (ControlledNetwork.layers n) width /\
     chain_ok (ControlledNetwork.layers n') width (length (ControlledNetwork.c n')) /\
     ControlledNetwork.c n' = ControlledNetwork.c n).
Proof.
  intros C Ne. unfold ControlledNetwork.forward. split; [split|].
  - intros H.
    destruct (Nat.eq_dec (length x) width) as [E1|]; [|auto].
    destruct (Nat.eq_dec (length c) (length (ControlledNetwork.c n))) as [E2|]; [|auto].
    destruct (forward_layers_ok _ _ _ x c g C E1 E2) as (o & ls' & g2 & E & _).
    rewrite E in H. discriminate.
  - intros H. destruct (ControlledNetwork.layers n) as [|l ls]; [contradiction|].
    simpl. destruct C as (_ & I1 & I2 & _).
    destruct (ControlledLayer.forward l x c g) as [[[y l'] g1]|] eqn:E; [|reflexivity].
    apply forward_inv in E as (E1 & E2 & _). destruct H; congruence.
  - intros out n' g'.
    destruct (ControlledNetwork.forward_layers _ x c g) as [[[y ls] g1]|] eqn:E;
      [|discriminate].
    intros H; injection H as <- <- <-. simpl.
    destruct (Nat.eq_dec (length x) width) as [E1|N1].
    + destruct (Nat.eq_dec (length c) (length (ControlledNetwork.c n))) as [E2|N2].
      * destruct (forward_layers_ok _ _ _ x c g C E1 E2)
          as (o & ls' & g2 & E' & C2 & _ & L2 & _).
        rewrite E in E'. injection E' as <- <- <-. auto.
      * destruct (ControlledNetwork.layers n) as [|l ls0]; [contradiction|].
        simpl in E. destruct C as (_ & I1 & I2 & _).
        destruct (ControlledLayer.forward l x c g) as [[[z l'] g3]|] eqn:E0; [|discriminate].
        apply forward_inv in E0 as (_ & E2 & _). congruence.
    + destruct (ControlledNetwork.layers n) as [|l ls0]; [contradiction|].
      simpl in E. destruct C as (_ & I1 & I2 & _).
      destruct (ControlledLayer.forward l x c g) as [[[z l'] g3]|] eqn:E0; [|discriminate].
      apply forward_inv in E0 as (E1 & _). congruence.
Qed.

Lemma network_forward_raises_iff_witness :
  ControlledNetwork.forward ex_net [1; 2] [0] g_half = None.
Proof.
  apply (proj1 (network_forward_raises_iff ex_net 1 [1; 2] [0] g_half
                  (proj1 wf_net_ex_net) ltac:(discriminate))).
  left. simpl. lia.
Defined.

Lemma evolve_loop_no_layers_stuck x t ct :
  forall fuel n g k first,
  ControlledNetwork.layers n = [] ->
  length ct = length x -> length (ControlledNetwork.c n) = length x ->
  ControlledNetwork.within_precision n x t = Some false ->
  ControlledNetwork.evolve_loop fuel x t ct n g k first = OutOfFuel.
Proof.
  induction fuel as [|fuel IH]; intros n g k first Hl L1 L2 Hw; [reflexivity|].
  rewrite evolve_loop_step. unfold loop_body, ControlledNetwork.forward. simpl.
  rewrite Hl. simpl.
  rewrite evolve_controller_same_shape by (simpl; assumption).
  cbv zeta.
  rewrite (within_precision_ext _ n x t) by reflexivity. rewrite Hw.
  apply IH.
  - reflexivity.
  - exact L1.
  - cbn [ControlledNetwork.c ControlledNetwork.set_c ControlledNetwork.set_layers].
    rewrite vadd_length, smul_length, vsub_length. lia.
  - rewrite <- Hw. now apply within_precision_ext.
Qed.

(** X21. A network built from a single width has no layer and its step
    hands the input back as the output.  Its convergence loop therefore
    either returns after the first pass, with the input as [first_output] and
    one controller update made, or never returns: the outcome is decided by
    the stopping test on the input itself. *)
Theorem evolve_no_layers net x t ct g fuel :
  ControlledNetwork.layers net = [] ->
  length ct = length x -> length (ControlledNetwork.c net) = length x ->
  length t = length x ->
  exists b,
    ControlledNetwork.within_precision net x t = Some b /\
    ControlledNetwork.evolve_to_convergence (S fuel) net x t ct g =
      if b then
        Returned (x, 1%nat,
                  ControlledNetwork.set_c (ControlledNetwork.reset net)
                    (vadd (zeros (length x))
                          (smul (ControlledNetwork.controller_rate net) (vsub ct x))),
                  g)
      else OutOfFuel.
Proof.
  intros Hl L1 L2 L3.
  destruct (within_precision_defined net x t L3) as [b Hb]. exists b. split; [exact Hb|].
  unfold ControlledNetwork.evolve_to_convergence.
  assert (Z : ControlledNetwork.c (ControlledNetwork.reset net) = zeros (length x)).
  { simpl. rewrite map_zero_as_zeros. now rewrite L2. }
  assert (Hl0 : ControlledNetwork.layers (ControlledNetwork.reset net) = [])
    by (simpl; now rewrite Hl).
  destruct b.
  - rewrite evolve_loop_step. unfold loop_body, ControlledNetwork.forward.
    cbn [fst snd]. rewrite Hl0. cbn [ControlledNetwork.forward_layers].
    rewrite evolve_controller_same_shape;
      [| exact L1 | cbn [ControlledNetwork.c ControlledNetwork.set_layers];
                    rewrite Z; apply zeros_length].
    cbv zeta. rewrite (within_precision_ext _ net x t) by reflexivity. rewrite Hb.
    cbn [Nat.eqb]. f_equal. f_equal. f_equal.
    cbn [ControlledNetwork.c ControlledNetwork.set_layers
         ControlledNetwork.controller_rate]. rewrite Z.
    unfold ControlledNetwork.set_c, ControlledNetwork.set_layers. simpl. now rewrite Hl.
  - apply evolve_loop_no_layers_stuck; try assumption.
    rewrite Z. apply zeros_length.
Qed.

Lemma ex_net_empty_init :
  ControlledNetwork.init [1]%nat "spiking" (9 / 10) (1 / 10) (PyBool false) (1 / 100)
    [0; 1] (fun _ _ _ => 2) = Some ex_net_empty.
Proof. reflexivity. Qed.

Lemma evolve_no_layers_witness :
  exists net',
    ControlledNetwork.evolve_to_convergence 6 ex_net_empty [1] [1] [1] g_half
    = Returned ([1], 1%nat, net', g_half).
Proof.
  destruct (evolve_no_layers ex_net_empty [1] [1] [1] g_half 5 eq_refl eq_refl eq_refl eq_refl)
    as (b & Hb & H).
  assert (E : b = true).
  { cbn in Hb. rewrite Rleb_true in Hb by r_case. congruence. }
  subst b. eexists. exact H.
Defined.
